(** * Session orchestration of the Bineural-Beats audio engine

    A shallow embedding of the session clock, the frequency envelope
    interpolator, the phase state machine, the binaural tone engine, the
    isochronic pulse scheduler, the ambient buffer cache and the narration
    cursor, with the properties of the specification settled against it.

    Numbers of the TypeScript code ([number]) are modelled as exact
    rationals [Q]; [performance.now()] and [AudioContext.currentTime] are
    explicit arguments of the operations that read them. *)

From Stdlib Require Import QArith Qabs Qround Qminmax Qfield Lqa Sorted ZArith Lia.
From stdpp Require Import base list gmap strings.

Open Scope Q_scope.

(* ------------------------------------------------------------------ *)
(** ** Data model (src/types.ts) *)

Record FrequencyPoint := mkFP { time : Q; beatFreq : Q }.

(** [CarrierLayer].  The preset data of the repository (the master track)
    also carries an optional [fixedBeatFreq] field on some layers; the
    runtime object keeps it, so it is part of the model. *)
Record CarrierLayer := mkLayer {
  carrierFreq : Q;
  gainDb : Q;
  fixedBeatFreq : option Q
}.

Record SessionPreset := mkPreset {
  duration : Q;
  carriers : list CarrierLayer;
  frequencyEnvelope : list FrequencyPoint;
  hasReturnPhase : bool
}.

Inductive SessionPhase := Idle | Induction | Main | Return | Complete.

Definition SessionPhase_eqb (a b : SessionPhase) : bool :=
  match a, b with
  | Idle, Idle | Induction, Induction | Main, Main
  | Return, Return | Complete, Complete => true
  | _, _ => false
  end.

(** JS comparisons on numbers. *)
Definition Qltb (a b : Q) : bool := negb (Qle_bool b a).
Definition Qleb (a b : Q) : bool := Qle_bool a b.

(* ------------------------------------------------------------------ *)
(** ** Envelope interpolation ([SessionManager.interpolateFrequency]) *)

(** The search loop
    [for (i = 0; i < env.length - 1; i++)
       if (time >= env[i].time && time < env[i + 1].time) { prev = env[i]; next = env[i + 1]; break }] *)
Fixpoint find_segment (env : list FrequencyPoint) (t : Q)
  : option (FrequencyPoint * FrequencyPoint) :=
  match env with
  | a :: ((b :: _) as rest) =>
      if Qleb (time a) t && Qltb t (time b) then Some (a, b)
      else find_segment rest t
  | _ => None
  end.

(** The tail of the function, from [segDur] on. *)
Definition lerp_segment (prev next : FrequencyPoint) (t : Q) : Q :=
  let segDur := time next - time prev in
  if Qeq_bool segDur 0 then beatFreq prev
  else
    let progress := (t - time prev) / segDur in
    beatFreq prev + (beatFreq next - beatFreq prev) * progress.

Definition interpolate_env (env : list FrequencyPoint) (t : Q) : Q :=
  match env with
  | [] => 10
  | [e0] => beatFreq e0
  | e0 :: _ =>
      let lastp := default e0 (last env) in
      if Qleb t (time e0) then beatFreq e0
      else if Qleb (time lastp) t then beatFreq lastp
      else
        let '(prev, next) := default (e0, lastp) (find_segment env t) in
        lerp_segment prev next t
  end.

(** [interpolateFrequency] reads [this.preset], which is [null] before
    [start]. *)
Definition interpolateFrequency (preset : option SessionPreset) (t : Q) : Q :=
  match preset with
  | None => 10
  | Some p => interpolate_env (frequencyEnvelope p) t
  end.

(** Keyframes ordered by time. *)
Definition env_sorted (env : list FrequencyPoint) : Prop :=
  Sorted (fun a b => time a <= time b) env.

Definition example_env : list FrequencyPoint :=
  [mkFP 0 8; mkFP 60 8; mkFP 120 4].

Definition example_preset : SessionPreset :=
  mkPreset 120 [mkLayer 200 0 None] example_env true.

(* ------------------------------------------------------------------ *)
(** ** Binaural tone engine ([BinauralEngine], src/audio/ambientSounds.ts) *)

(** One [OscillatorPair]: the values written to the oscillators' frequency,
    the gain nodes and the stereo panners.  For a ramped frequency the
    field holds the ramp's target value. *)
Record OscillatorPair := mkPair {
  leftFreq : Q;
  rightFreq : Q;
  leftGain : Q;
  rightGain : Q;
  leftPan : Q;
  rightPan : Q;
  pair_carrierFreq : Q
}.

Record BinauralEngine := mkEngine {
  eng_running : bool;
  pairs : list OscillatorPair;
  _currentBeatFreq : Q
}.

Definition with_right (pr : OscillatorPair) (f : Q) : OscillatorPair :=
  mkPair (leftFreq pr) f (leftGain pr) (rightGain pr) (leftPan pr) (rightPan pr)
    (pair_carrierFreq pr).

(** [rampBeatFrequency(newBeatFreq, durationSec)]: a linear ramp to
    [carrierFreq + newBeatFreq] for a change under 1 Hz, an exponential
    ramp to [Math.max(carrierFreq + newBeatFreq, 0.01)] otherwise. *)
Definition rampBeatFrequency (e : BinauralEngine) (newBeatFreq : Q) : BinauralEngine :=
  if negb (eng_running e) then e
  else
    mkEngine true
      (map (fun pr =>
              let targetFreq := pair_carrierFreq pr + newBeatFreq in
              if Qltb (Qabs (newBeatFreq - _currentBeatFreq e)) 1
              then with_right pr targetFreq
              else with_right pr (Qmax targetFreq (1#100)))
           (pairs e))
      newBeatFreq.

Definition setBeatFrequency (e : BinauralEngine) (beatFreq : Q) : BinauralEngine :=
  if negb (eng_running e) then e
  else
    mkEngine true
      (map (fun pr => with_right pr (pair_carrierFreq pr + beatFreq)) (pairs e))
      beatFreq.

(* ------------------------------------------------------------------ *)
(** ** Session manager ([SessionManager], src/audio/SessionManager.ts) *)

(** The fields of the manager the clock, the phase machine and the tone
    engine depend on; [tickLoop] records whether a tick is scheduled
    ([startTickLoop] / [stopTickLoop]).  The noise, isochronic, ambient
    and narration layers driven by the manager are modelled separately. *)
Record Session := mkSession {
  preset : option SessionPreset;
  startTime : Q;
  pausedAt : Q;
  pauseOffset : Q;
  _phase : SessionPhase;
  _elapsed : Q;
  engine : BinauralEngine;
  tickLoop : bool
}.

(** The state passed to the session callback. *)
Record Snapshot := mkSnapshot {
  snap_phase : SessionPhase;
  snap_elapsed : Q;
  snap_beatFreq : Q
}.

Definition set_phase (s : Session) (ph : SessionPhase) : Session :=
  mkSession (preset s) (startTime s) (pausedAt s) (pauseOffset s) ph
    (_elapsed s) (engine s) (tickLoop s).
Definition set_elapsed (s : Session) (t : Q) : Session :=
  mkSession (preset s) (startTime s) (pausedAt s) (pauseOffset s) (_phase s)
    t (engine s) (tickLoop s).
Definition set_clock (s : Session) (pa po : Q) : Session :=
  mkSession (preset s) (startTime s) pa po (_phase s)
    (_elapsed s) (engine s) (tickLoop s).
Definition set_engine (s : Session) (e : BinauralEngine) : Session :=
  mkSession (preset s) (startTime s) (pausedAt s) (pauseOffset s) (_phase s)
    (_elapsed s) e (tickLoop s).
Definition set_tickLoop (s : Session) (b : bool) : Session :=
  mkSession (preset s) (startTime s) (pausedAt s) (pauseOffset s) (_phase s)
    (_elapsed s) (engine s) b.

(** The elapsed-time formula of [tick] and [resume], in seconds, at the
    [performance.now()] reading [now] (milliseconds). *)
Definition clock (s : Session) (now : Q) : Q :=
  (now - startTime s - pauseOffset s) / 1000.

(** The rule of [updatePhase] at elapsed time [t]. *)
Definition phase_at (p : SessionPreset) (t : Q) : SessionPhase :=
  let env := frequencyEnvelope p in
  let dur := duration p in
  match env with
  | e0 :: e1 :: _ =>
      let inductionEnd := time e1 in
      let returnStart :=
        if Nat.leb 3 (length env)
        then default 0 (time <$> env !! (length env - 2)%nat)
        else dur * (85#100) in
      if Qltb t inductionEnd then Induction
      else if hasReturnPhase p && Qltb returnStart t then Return
      else Main
  | _ => Main
  end.

Definition updatePhase (s : Session) : Session :=
  match preset s with
  | None => s
  | Some p => set_phase s (phase_at p (_elapsed s))
  end.

(** [completeSession]: the fades and the chime are not modelled. *)
Definition completeSession (s : Session) : Session * option Snapshot :=
  let s' := set_tickLoop (set_phase s Complete) false in
  (s', Some (mkSnapshot Complete
               (match preset s with Some p => duration p | None => _elapsed s end)
               (_currentBeatFreq (engine s)))).

Definition pause (s : Session) (now : Q) : Session :=
  if Qltb 0 (pausedAt s) || SessionPhase_eqb (_phase s) Idle
     || SessionPhase_eqb (_phase s) Complete
  then s
  else set_tickLoop (set_clock s now (pauseOffset s)) false.

Definition resume (s : Session) (now : Q) : Session * option Snapshot :=
  if Qeq_bool (pausedAt s) 0 then (s, None)
  else
    let s1 := set_clock s 0 (pauseOffset s + (now - pausedAt s)) in
    let elapsed := (now - startTime s1 - pauseOffset s1) / 1000 in
    match preset s1 with
    | Some p =>
        if Qleb (duration p) elapsed then completeSession s1
        else (set_tickLoop s1 true, None)
    | None => (set_tickLoop s1 true, None)
    end.

(** [seek(targetTime)]: the isochronic and narration updates it makes are
    not modelled here. *)
Definition seek (s : Session) (targetTime now : Q) : Session * option Snapshot :=
  match preset s with
  | None => (s, None)
  | Some p =>
      let clampedTime := Qmax 0 (Qmin targetTime (duration p - (1#10))) in
      let nowr := if Qltb 0 (pausedAt s) then pausedAt s else now in
      let s1 := set_elapsed
                  (set_clock s (pausedAt s) (nowr - startTime s - clampedTime * 1000))
                  clampedTime in
      let s2 := updatePhase s1 in
      let targetFreq := Qmax (interpolateFrequency (preset s2) clampedTime) (1#10) in
      let s3 := set_engine s2 (setBeatFrequency (engine s2) targetFreq) in
      (s3, Some (mkSnapshot (_phase s3) clampedTime targetFreq))
  end.

Section WithMath.
(** [Math.pow], [Math.sin] and [Math.PI]; the properties below hold for
    any functions in their place. *)
Variable Math_pow : Q -> Q -> Q.
Variable Math_sin : Q -> Q.
Variable Math_PI : Q.

(** [createPair(layer, beatFreq)]. *)
Definition createPair (layer : CarrierLayer) (beatFreq : Q) : OscillatorPair :=
  let linearGain := Math_pow 10 (gainDb layer / 20) * (3#10) in
  mkPair (carrierFreq layer) (carrierFreq layer + beatFreq)
    linearGain linearGain (-1) 1 (carrierFreq layer).

Definition startWithContext (carriers : list CarrierLayer) (beatFreq : Q) : BinauralEngine :=
  mkEngine true (map (fun layer => createPair layer beatFreq) carriers) beatFreq.

(** [start]: reading [frequencyEnvelope[0].beatFreq] throws on an empty
    envelope ([None]). *)
Definition start (p : SessionPreset) (now : Q) : option Session :=
  match frequencyEnvelope p with
  | [] => None
  | e0 :: _ =>
      Some (mkSession (Some p) now 0 0 Induction 0
              (startWithContext (carriers p) (beatFreq e0)) true)
  end.

(** [tick]. *)
Definition tick (s : Session) (now : Q) : Session * option Snapshot :=
  match preset s with
  | None => (s, None)
  | Some p =>
      if Qltb 0 (pausedAt s) then (s, None)
      else
        let s1 := set_elapsed s (clock s now) in
        if Qleb (duration p) (_elapsed s1) then completeSession s1
        else
          let s2 := updatePhase s1 in
          let el := _elapsed s2 in
          let targetFreq0 := interpolateFrequency (preset s2) el in
          let targetFreq1 :=
            if SessionPhase_eqb (_phase s2) Main
            then targetFreq0 + Math_sin (el * 2 * Math_PI / 45) * (3#10)
            else targetFreq0 in
          let targetFreq := Qmax targetFreq1 (1#10) in
          let eng :=
            if Qltb (1#100) (Qabs (targetFreq - _currentBeatFreq (engine s2)))
            then rampBeatFrequency (engine s2) targetFreq
            else engine s2 in
          (set_engine s2 eng, Some (mkSnapshot (_phase s2) el targetFreq))
  end.

(** The phases reported by a sequence of ticks at the given clock
    readings. *)
Fixpoint run_ticks (s : Session) (nows : list Q) : list SessionPhase :=
  match nows with
  | [] => []
  | now :: rest => let s' := fst (tick s now) in _phase s' :: run_ticks s' rest
  end.

End WithMath.

(** [Math.pow] on integer exponents, used to build concrete sessions. *)
Definition pow_int (b x : Q) : Q := Qpower b (Qfloor x).

(** The session right after [start(example_preset)] at [performance.now()
    = 1000]. *)
Definition example_session : Session :=
  default (mkSession None 0 0 0 Idle 0 (mkEngine false [] 0) false)
    (start pow_int example_preset 1000).

Definition phase_rank (ph : SessionPhase) : nat :=
  match ph with
  | Idle => 0 | Induction => 1 | Main => 2 | Return => 3 | Complete => 4
  end.

(** The phase a tick reports at elapsed time [t]: [complete] from
    [duration] on, the [updatePhase] rule before. *)
Definition tick_phase (p : SessionPreset) (t : Q) : SessionPhase :=
  if Qleb (duration p) t then Complete else phase_at p t.

(** Clock readings (ms) of five ticks of [example_session]: elapsed
    0, 59, 61, 119 and 121 seconds. *)
Definition example_nows : list Q := [1000; 60000; 62000; 120000; 122000].

(** A pair built for [layer] at beat frequency [beat]: left at
    [carrierFreq], right at [carrierFreq + beat], both gains
    [10^(gainDb/20) * 0.3], pans -1 and +1. *)
Definition pair_matches (Math_pow : Q -> Q -> Q) (layer : CarrierLayer) (beat : Q)
    (pr : OscillatorPair) : Prop :=
  leftFreq pr = carrierFreq layer /\ rightFreq pr = carrierFreq layer + beat /\
  leftGain pr = Math_pow 10 (gainDb layer / 20) * (3#10) /\ rightGain pr = leftGain pr /\
  leftPan pr = -1 /\ rightPan pr = 1 /\ pair_carrierFreq pr = carrierFreq layer.

(** The engine runs one pair per carrier layer, each tracking the
    engine's current beat frequency. *)
Definition engine_tracks (Math_pow : Q -> Q -> Q) (layers : list CarrierLayer)
    (e : BinauralEngine) : Prop :=
  eng_running e = true /\
  Forall2 (fun layer pr => pair_matches Math_pow layer (_currentBeatFreq e) pr) layers (pairs e).

(** The gamma overlay layer of the master track. *)
Definition gamma_layer : CarrierLayer := mkLayer 400 (-60) (Some 40).

(* ------------------------------------------------------------------ *)
(** ** Narration cursor ([VoiceCueEngine], src/unnamed/part_003) *)

Record VoiceCue := mkCue {
  cue_time : Q;
  cue_text : option string;
  cue_chime : bool;
  cue_chimeOnly : bool
}.

(** [activeSource]: the index of the cue whose buffer is playing.
    [pendingFetch]: the cues whose [playAudio] call is suspended at
    [await this.fetchBuffer(cueIndex)], in call order.  The manifest is
    taken as loaded (no speech fallback); prefetching is not modelled. *)
Record VoiceCueEngine := mkVoice {
  cues : list VoiceCue;
  nextCueIndex : nat;
  enabled : bool;
  activeSource : option nat;
  pendingFetch : list nat
}.

Definition cue_time_at (l : list VoiceCue) (i : nat) : Q :=
  default 0 (cue_time <$> l !! i).

(** The loop [while (lo < hi) { mid = (lo + hi) >>> 1; if (cues[mid].time
    < time) lo = mid + 1 else hi = mid }].  [(lo + hi) >>> 1] is
    [floor((lo + hi) / 2)] for arrays shorter than 2^31 entries.  Each
    round shrinks [hi - lo], so [fuel = hi - lo] rounds suffice. *)
Fixpoint bsearch (l : list VoiceCue) (t : Q) (fuel lo hi : nat) : nat :=
  match fuel with
  | O => lo
  | S f =>
      if Nat.ltb lo hi then
        let mid := Nat.div2 (lo + hi) in
        if Qltb (cue_time_at l mid) t then bsearch l t f (S mid) hi
        else bsearch l t f lo mid
      else lo
  end.

(** [seek(time)]: [stopActiveSource()], then the binary search. *)
Definition voice_seek (v : VoiceCueEngine) (t : Q) : VoiceCueEngine :=
  let lo := bsearch (cues v) t (length (cues v)) 0 (length (cues v)) in
  mkVoice (cues v) lo (enabled v) None (pendingFetch v).

(** [playAudio(cueIndex)] up to its [await]: [stopActiveSource()], then the
    buffer fetch is pending. *)
Definition playAudio (v : VoiceCueEngine) (i : nat) : VoiceCueEngine :=
  mkVoice (cues v) (nextCueIndex v) (enabled v) None (pendingFetch v ++ [i]).



(** [!cue.chimeOnly && cue.text] and [this.enabled]: the cue is spoken. *)
Definition speaks (v : VoiceCueEngine) (i : nat) : bool :=
  match cues v !! i with
  | Some c => enabled v && negb (cue_chimeOnly c) &&
              match cue_text c with Some txt => match txt with EmptyString => false | _ => true end | None => false end
  | None => false
  end.

Fixpoint play_all (v : VoiceCueEngine) (ds : list nat) : VoiceCueEngine :=
  match ds with
  | [] => v
  | i :: rest => play_all (if speaks v i then playAudio v i else v) rest
  end.

(** The [while] loop of [tick(elapsed)] from cue index [i] over the
    remaining cues [l]: the new cursor and the indices of the cues it
    dispatches. *)
Fixpoint dispatch_from (l : list VoiceCue) (i : nat) (elapsed : Q) : nat * list nat :=
  match l with
  | [] => (i, [])
  | c :: rest =>
      if Qleb (cue_time c) elapsed then
        let '(j, ds) := dispatch_from rest (S i) elapsed in (j, i :: ds)
      else (i, [])
  end.

(** [tick(elapsed)]: the cursor after the tick and the dispatched cues. *)
Definition voice_tick (v : VoiceCueEngine) (elapsed : Q) : VoiceCueEngine * list nat :=
  if Nat.leb (length (cues v)) (nextCueIndex v) then (v, [])
  else
    let '(j, ds) := dispatch_from (drop (nextCueIndex v) (cues v)) (nextCueIndex v) elapsed in
    (play_all (mkVoice (cues v) j (enabled v) (activeSource v) (pendingFetch v)) ds, ds).


(** The specification's cursor position: the index of the first cue with
    [time >= t] ([length] when there is none). *)
Fixpoint first_at_or_after (l : list VoiceCue) (t : Q) : nat :=
  match l with
  | [] => 0
  | c :: rest => if Qleb t (cue_time c) then 0 else S (first_at_or_after rest t)
  end.

Definition cues_sorted (l : list VoiceCue) : Prop :=
  Sorted (fun a b => cue_time a <= cue_time b) l.

Definition example_cues : list VoiceCue :=
  [mkCue 0 (Some "welcome"%string) false false; mkCue 30 None true true;
   mkCue 60 (Some "breathe"%string) true false; mkCue 90 (Some "return"%string) false false].

(* ------------------------------------------------------------------ *)
(** ** Decoded-buffer cache ([AmbientEngine], src/src/audio/AmbientEngine.ts) *)

(** A decoded [AudioBuffer], by an identifier. *)
Definition AudioBuffer := nat.

Record AmbientSoundMeta := mkMeta {
  meta_id : string;
  filename : string
}.

(** The table [ambientSounds] (src/src/audio/ambientSounds.ts). *)
Definition ambientSounds : list AmbientSoundMeta :=
  [mkMeta "rain" "rain.ogg"; mkMeta "ocean" "ocean.ogg"; mkMeta "forest" "forest.ogg";
   mkMeta "fire" "fire.ogg"; mkMeta "wind" "wind.ogg"; mkMeta "stream" "stream.ogg"].

Definition MAX_CACHED_BUFFERS : nat := 3.

(** [bufferCache : Map<string, AudioBuffer>] and [cacheOrder : string[]]. *)
Record AmbientCache := mkCache {
  bufferCache : gmap string AudioBuffer;
  cacheOrder : list string
}.

Definition empty_cache : AmbientCache := mkCache ∅ [].

(** [ambientSounds.find((s) => s.id === sound)] *)
Definition find_meta (sound : string) : option AmbientSoundMeta :=
  List.find (fun m => String.eqb (meta_id m) sound) ambientSounds.

(** The synchronous part of [fetchBuffer], up to the first [await]: no
    metadata, a cache hit, or a fetch of [cacheKey] that goes pending. *)
Inductive FetchStart :=
  | NoMeta
  | CacheHit (b : AudioBuffer)
  | FetchMiss (cacheKey : string).

Definition fetch_begin (c : AmbientCache) (sound : string) : FetchStart :=
  match find_meta sound with
  | None => NoMeta
  | Some meta =>
      match bufferCache c !! filename meta with
      | Some b => CacheHit b
      | None => FetchMiss (filename meta)
      end
  end.

(** [while (this.cacheOrder.length > MAX_CACHED_BUFFERS)
      { evicted = this.cacheOrder.shift()!; this.bufferCache.delete(evicted) }] *)
Fixpoint evict (m : gmap string AudioBuffer) (order : list string)
    : gmap string AudioBuffer * list string :=
  match order with
  | [] => (m, [])
  | k :: rest =>
      if Nat.ltb MAX_CACHED_BUFFERS (length order) then evict (delete k m) rest
      else (m, order)
  end.

(** The continuation of [fetchBuffer] once the fetch of [cacheKey] has been
    decoded: [set], [push], then the eviction loop.  A failed fetch or
    decode leaves the cache unchanged. *)
Definition fetch_complete (c : AmbientCache) (cacheKey : string) (buf : AudioBuffer)
    : AmbientCache :=
  let '(m, o) := evict (<[cacheKey := buf]> (bufferCache c)) (cacheOrder c ++ [cacheKey]) in
  mkCache m o.

(** Completions in any order: [fetch_begin] reads the cache only, so every
    reachable cache is [complete_all empty_cache evs] for some [evs]. *)
Definition complete_all (c : AmbientCache) (evs : list (string * AudioBuffer)) : AmbientCache :=
  fold_left (fun c kb => fetch_complete c kb.1 kb.2) evs c.

(** One request that completes before the next one is made; [decode]
    gives the buffer decoded from a file. *)
Definition request (decode : string -> AudioBuffer) (c : AmbientCache) (sound : string)
    : AmbientCache :=
  match fetch_begin c sound with
  | FetchMiss key => fetch_complete c key (decode key)
  | _ => c
  end.

Definition request_all (decode : string -> AudioBuffer) (c : AmbientCache)
    (sounds : list string) : AmbientCache :=
  fold_left (request decode) sounds c.

Definition sound_file (sound : string) : option string := filename <$> find_meta sound.

Definition example_decode (f : string) : AudioBuffer := String.length f.

(** Deleting the keys [ks] in turn. *)
Definition delete_all (m : gmap string AudioBuffer) (ks : list string) : gmap string AudioBuffer :=
  foldl (fun m k => delete k m) m ks.

(** The invariant of the cache: at most [MAX_CACHED_BUFFERS] keys in the
    order, and every cached key listed in it. *)
Definition cache_inv (c : AmbientCache) : Prop :=
  (length (cacheOrder c) <= MAX_CACHED_BUFFERS)%nat /\
  forall k b, bufferCache c !! k = Some b -> In k (cacheOrder c).

(* ------------------------------------------------------------------ *)
(** ** Pulse scheduler ([IsochronicEngine], src/unnamed/part_004) *)

(** The automation events of [pulseGain.gain] (an [AudioParam]). *)
Inductive ParamEvent :=
  | SetValueAtTime (value time : Q)
  | LinearRampToValueAtTime (value time : Q).

Definition event_time (e : ParamEvent) : Q :=
  match e with SetValueAtTime _ t | LinearRampToValueAtTime _ t => t end.

(** [cancelScheduledValues(cancelTime)] removes every event at or after
    [cancelTime]. *)
Definition cancelScheduledValues (cancelTime : Q) (evs : list ParamEvent) : list ParamEvent :=
  List.filter (fun e => Qltb (event_time e) cancelTime) evs.

(** [_beatFreq], [lastScheduledTime] and the events of the pulse gain. *)
Record IsochronicEngine := mkIso {
  _beatFreq : Q;
  lastScheduledTime : Q;
  gain_events : list ParamEvent
}.

Definition scheduleAhead : Q := 11#10.
Definition rampTime : Q := 2#1000.

(** The body of the [while] loop of [schedulePulses] at cycle start [t]. *)
Definition pulse_events (period t : Q) : list ParamEvent :=
  let halfPeriod := period / 2 in
  let onEnd := t + halfPeriod in
  let offEnd := t + period in
  [SetValueAtTime 0 t; LinearRampToValueAtTime 1 (t + rampTime);
   SetValueAtTime 1 (onEnd - rampTime); LinearRampToValueAtTime 0 onEnd;
   SetValueAtTime 0 offEnd].

(** [while (t < endTime) { ...; t = offEnd }], with [fuel] bounding the
    number of rounds; the events scheduled and the final [t]. *)
Fixpoint pulse_loop (fuel : nat) (period t endTime : Q) : list ParamEvent * Q :=
  match fuel with
  | O => ([], t)
  | S n =>
      if Qltb t endTime then
        let '(evs, t') := pulse_loop n period (t + period) endTime in
        (pulse_events period t ++ evs, t')
      else ([], t)
  end.

(** Enough rounds for the loop to stop by its own test when [period > 0]. *)
Definition loop_fuel (period startFrom endTime : Q) : nat :=
  S (Z.to_nat (Qceiling ((endTime - startFrom) / period))).

Definition schedulePulses (e : IsochronicEngine) (now : Q) : IsochronicEngine :=
  let endTime := now + scheduleAhead in
  let startFrom :=
    if Qltb (lastScheduledTime e) (now - (1#10)) then now
    else Qmax (lastScheduledTime e) now in
  let kept := cancelScheduledValues startFrom (gain_events e) in
  let period := 1 / _beatFreq e in
  let '(evs, t) := pulse_loop (loop_fuel period startFrom endTime) period startFrom endTime in
  mkIso (_beatFreq e) t (kept ++ evs).

(** [start(...)] at [ctx.currentTime = now]: [lastScheduledTime = now], the
    first batch; then the interval calls [schedulePulses] at [nows]. *)
Definition iso_start (beatFreq now : Q) : IsochronicEngine :=
  schedulePulses (mkIso beatFreq now []) now.

Definition iso_run (e : IsochronicEngine) (nows : list Q) : IsochronicEngine :=
  fold_left schedulePulses nows e.

(** Complete on/off cycles in the window [[a, a + w]]: the cycles whose
    attack ramp [linearRampToValueAtTime(1, t + rampTime)] has
    [a <= t] and [t + period <= a + w]. *)
Definition complete_cycles (period a w : Q) (evs : list ParamEvent) : nat :=
  length (List.filter
    (fun e => match e with
              | LinearRampToValueAtTime v tau =>
                  Qeq_bool v 1 && Qleb a (tau - rampTime) &&
                  Qleb (tau - rampTime + period) (a + w)
              | SetValueAtTime _ _ => false
              end) evs).

(** The start of cycle [k] of a schedule begun at [s0]: [t = offEnd]
    applied [k] times. *)
Definition cyc_start (period s0 : Q) (k : nat) : Q := Nat.iter k (fun t => t + period) s0.

(** A cycle without its closing [setValueAtTime(0, offEnd)]. *)
Definition cycle_open (period t : Q) : list ParamEvent :=
  [SetValueAtTime 0 t; LinearRampToValueAtTime 1 (t + rampTime);
   SetValueAtTime 1 (t + period / 2 - rampTime); LinearRampToValueAtTime 0 (t + period / 2)].

(** Cycles [0 .. K-1] from [s0]; cycle [k] keeps its closing event when
    [closed k] holds. *)
Definition timeline (period s0 : Q) (K : nat) (closed : nat -> bool) : list ParamEvent :=
  concat (map (fun k => if closed k then pulse_events period (cyc_start period s0 k)
                        else cycle_open period (cyc_start period s0 k)) (seq 0 K)).

(* ------------------------------------------------------------------ *)
(** ** Further operations of the session manager *)



(** The getters [isPlaying] and [isPaused]. *)
Definition isPlaying (s : Session) : bool :=
  negb (SessionPhase_eqb (_phase s) Idle) && negb (SessionPhase_eqb (_phase s) Complete)
  && Qeq_bool (pausedAt s) 0.

Definition isPaused (s : Session) : bool := Qltb 0 (pausedAt s).

(** A phase of a [GuidanceScript]. *)
Record GuidancePhase := mkGPhase {
  gp_name : string;
  gp_startTime : Q;
  gp_endTime : Q
}.

(** [elapsed >= phases[i].startTime && elapsed < phases[i].endTime] *)
Definition phase_contains (ph : GuidancePhase) (elapsed : Q) : bool :=
  Qleb (gp_startTime ph) elapsed && Qltb elapsed (gp_endTime ph).

(** [getCurrentGuidancePhaseName(elapsed)]; [phases] is [None] when
    [guidanceScript] is [null].  The loop runs from the last phase down to
    the first and returns at the first hit: a [find] over the reversed
    list. *)
Definition getCurrentGuidancePhaseName (phases : option (list GuidancePhase)) (elapsed : Q)
    : option string :=
  match phases with
  | None => None
  | Some ps => gp_name <$> List.find (fun ph => phase_contains ph elapsed) (rev ps)
  end.

(** [guidanceScript.resonantTuning]. *)
Record ResonantTuning := mkRT {
  rt_startTime : Q;
  rt_endTime : Q;
  rt_frequency : option Q;
  rt_gainDb : option Q
}.

(** The call [updateResonantTone] makes on the resonant tone engine. *)
Inductive ToneAction :=
  | ToneStart (frequency gainDb : Q)
  | ToneStop
  | ToneKeep.

(** [updateResonantTone(elapsed)]: the new [resonantToneActive] and the
    call made; [hasCtx] is [this.ctx !== null], [rt] is [None] when there
    is no [guidanceScript] or no [resonantTuning]. *)
Definition updateResonantTone (rt : option ResonantTuning) (hasCtx : bool)
    (resonantToneActive : bool) (elapsed : Q) : bool * ToneAction :=
  match rt with
  | None => (resonantToneActive, ToneKeep)
  | Some r =>
      if negb hasCtx then (resonantToneActive, ToneKeep)
      else
        let inWindow := Qleb (rt_startTime r) elapsed && Qltb elapsed (rt_endTime r) in
        if inWindow && negb resonantToneActive then
          (true, ToneStart (default 136 (rt_frequency r)) (default (-6) (rt_gainDb r)))
        else if negb inWindow && resonantToneActive then (false, ToneStop)
        else (resonantToneActive, ToneKeep)
  end.

(** [updateResonantTone] called by successive ticks at elapsed times [es]. *)
Fixpoint resonant_run (rt : option ResonantTuning) (hasCtx : bool) (active : bool)
    (es : list Q) : bool * list ToneAction :=
  match es with
  | [] => (active, [])
  | e :: rest =>
      let '(a', act) := updateResonantTone rt hasCtx active e in
      let '(af, acts) := resonant_run rt hasCtx a' rest in
      (af, act :: acts)
  end.

(** Starts and stops of the tone alternate, the first one matching the
    initial flag. *)
Fixpoint tone_alternates (active : bool) (acts : list ToneAction) : Prop :=
  match acts with
  | [] => True
  | ToneStart _ _ :: rest => active = false /\ tone_alternates true rest
  | ToneStop :: rest => active = true /\ tone_alternates false rest
  | ToneKeep :: rest => tone_alternates active rest
  end.

(* ------------------------------------------------------------------ *)
(** ** Further operations of the pulse scheduler *)

(** [IsochronicEngine.setBeatFrequency(freq)]: [_beatFreq = Math.max(freq, 1)]. *)
Definition iso_setBeatFrequency (e : IsochronicEngine) (freq : Q) : IsochronicEngine :=
  mkIso (Qmax freq 1) (lastScheduledTime e) (gain_events e).

(* ------------------------------------------------------------------ *)
(** ** Further operations of the narration engine (src/unnamed/part_003) *)

(** [cue.text] is truthy. *)
Definition cue_has_text (c : VoiceCue) : bool :=
  match cue_text c with
  | Some txt => match txt with EmptyString => false | _ => true end
  | None => false
  end.

(** [!cue.chimeOnly && cue.text] *)
Definition cue_spoken (c : VoiceCue) : bool := negb (cue_chimeOnly c) && cue_has_text c.

(** [for (const cue of this.cues) { if (cue.time > time) break;
       if (!cue.chimeOnly && cue.text) text = cue.text }] *)
Fixpoint text_at_loop (l : list VoiceCue) (time : Q) (text : option string) : option string :=
  match l with
  | [] => text
  | c :: rest =>
      if Qltb time (cue_time c) then text
      else text_at_loop rest time (if cue_spoken c then cue_text c else text)
  end.

Definition getTextAtTime (v : VoiceCueEngine) (time : Q) : option string :=
  text_at_loop (cues v) time None.

(** [for (let i = 0; i < cueIndex && i < this.cues.length; i++)
       if (!this.cues[i].chimeOnly) spokenIdx++] *)
Fixpoint spoken_count (l : list VoiceCue) (cueIndex : nat) : nat :=
  match cueIndex, l with
  | O, _ | _, [] => 0
  | S n, c :: rest => (if cue_chimeOnly c then 0 else 1) + spoken_count rest n
  end.

Definition getSpokenIndex (v : VoiceCueEngine) (cueIndex : nat) : nat :=
  spoken_count (cues v) cueIndex.

(** [for (let i = fromCueIndex; i < this.cues.length && prefetched < count; i++)
       if (!this.cues[i].chimeOnly && this.cues[i].text) { this.fetchBuffer(i); prefetched++ }]
    over the cues from index [i] on: the indices passed to [fetchBuffer]. *)
Fixpoint prefetch_loop (l : list VoiceCue) (i count : nat) : list nat :=
  match l, count with
  | [], _ | _, O => []
  | c :: rest, S k =>
      if cue_spoken c then i :: prefetch_loop rest (S i) k
      else prefetch_loop rest (S i) count
  end.

Definition prefetchAhead (v : VoiceCueEngine) (fromCueIndex count : nat) : list nat :=
  prefetch_loop (drop fromCueIndex (cues v)) fromCueIndex count.

(** The buffer state of the narration engine: [bufferCache],
    [fetchPromises] (the indices with a fetch in flight) and [manifest]. *)
Record VoiceFetch := mkVFetch {
  voiceBuffers : gmap nat AudioBuffer;
  fetchPromises : gset nat;
  manifest : list string
}.

(** What the synchronous part of [fetchBuffer(cueIndex)] does: return the
    cached buffer, return the promise in flight, return [null] when the
    manifest has no file for the cue, or start the fetch of a file. *)
Inductive VoiceFetchStart :=
  | VCached (b : AudioBuffer)
  | VJoined
  | VNoFile
  | VStarted (filename : string).

Definition voice_fetch_begin (l : list VoiceCue) (st : VoiceFetch) (cueIndex : nat)
    : VoiceFetchStart * VoiceFetch :=
  match voiceBuffers st !! cueIndex with
  | Some b => (VCached b, st)
  | None =>
      if decide (cueIndex ∈ fetchPromises st) then (VJoined, st)
      else
        match manifest st !! spoken_count l cueIndex with
        | None => (VNoFile, st)
        | Some filename =>
            (VStarted filename,
             mkVFetch (voiceBuffers st) ({[cueIndex]} ∪ fetchPromises st) (manifest st))
        end
  end.

(** The end of the fetch started for [cueIndex]: the decoded buffer is
    cached ([None] for a failed fetch or decode), and the [finally] block
    removes the promise. *)
Definition voice_fetch_complete (st : VoiceFetch) (cueIndex : nat) (res : option AudioBuffer)
    : VoiceFetch :=
  mkVFetch (match res with Some b => <[cueIndex := b]> (voiceBuffers st) | None => voiceBuffers st end)
    (fetchPromises st ∖ {[cueIndex]}) (manifest st).

Inductive VoiceFetchOp :=
  | FetchReq (cueIndex : nat)
  | FetchDone (cueIndex : nat) (res : option AudioBuffer).

(** A sequence of [fetchBuffer] calls and fetch completions; the outcome of
    each call, with its cue index. *)
Fixpoint voice_fetch_run (l : list VoiceCue) (st : VoiceFetch) (ops : list VoiceFetchOp)
    : list (nat * VoiceFetchStart) * VoiceFetch :=
  match ops with
  | [] => ([], st)
  | FetchReq i :: rest =>
      let '(o, st') := voice_fetch_begin l st i in
      let '(outs, stf) := voice_fetch_run l st' rest in ((i, o) :: outs, stf)
  | FetchDone i res :: rest => voice_fetch_run l (voice_fetch_complete st i res) rest
  end.

(** The cue indices whose call started a network fetch. *)
Definition started_fetches (outs : list (nat * VoiceFetchStart)) : list nat :=
  omap (fun io => match io.2 with VStarted _ => Some io.1 | _ => None end) outs.

(** The [shouldChime] and [cueText] flags of the dispatch loop of [tick]
    over the dispatched cue indices [ds]. *)
Fixpoint tick_flags (l : list VoiceCue) (ds : list nat) (shouldChime : bool)
    (cueText : option string) : bool * option string :=
  match ds with
  | [] => (shouldChime, cueText)
  | i :: rest =>
      match l !! i with
      | Some c =>
          tick_flags l rest (shouldChime || cue_chime c || cue_chimeOnly c)
            (if cue_spoken c then cue_text c else cueText)
      | None => tick_flags l rest shouldChime cueText
      end
  end.

(** The value [tick(elapsed)] returns. *)
Definition voice_tick_result (v : VoiceCueEngine) (elapsed : Q) : bool * option string :=
  if Nat.leb (length (cues v)) (nextCueIndex v) then (false, None)
  else tick_flags (cues v) (snd (voice_tick v elapsed)) false None.

(** [[...cues].sort((a, b) => a.time - b.time)]: [Array.prototype.sort] is
    stable, so the result is the stable sort by [time], computed here by
    insertion (a cue goes after the cues of equal time already placed). *)
Fixpoint insert_by_time (c : VoiceCue) (l : list VoiceCue) : list VoiceCue :=
  match l with
  | [] => [c]
  | x :: rest => if Qltb (cue_time c) (cue_time x) then c :: x :: rest else x :: insert_by_time c rest
  end.

Definition sort_by_time (l : list VoiceCue) : list VoiceCue :=
  fold_left (fun acc c => insert_by_time c acc) l [].

(** [init(ctx, destination, trackId, cues, { enabled })] on the cursor
    state: the playback in flight ([activeSource], pending fetches) is not
    stopped by [init]. *)
Definition voice_init (v : VoiceCueEngine) (cs : list VoiceCue) (en : bool) : VoiceCueEngine :=
  mkVoice (sort_by_time cs) 0 en (activeSource v) (pendingFetch v).

(* ------------------------------------------------------------------ *)
(** ** The speech-synthesis narration engine (src/src/audio/VoiceCueEngine.ts) *)

(** [tick(elapsed)] of the engine [SessionManager] drives: the new state,
    [shouldChime] and the texts passed to [speak]; [isAvailable] is
    [typeof speechSynthesis !== 'undefined']. *)
Definition speech_tick (isAvailable : bool) (v : VoiceCueEngine) (elapsed : Q)
    : VoiceCueEngine * bool * list string :=
  if negb (enabled v) || negb isAvailable || Nat.leb (length (cues v)) (nextCueIndex v)
  then (v, false, [])
  else
    let '(j, ds) := dispatch_from (drop (nextCueIndex v) (cues v)) (nextCueIndex v) elapsed in
    (mkVoice (cues v) j (enabled v) (activeSource v) (pendingFetch v),
     fst (tick_flags (cues v) ds false None),
     omap (fun i => match cues v !! i with
                    | Some c => if cue_spoken c then cue_text c else None
                    | None => None
                    end) ds).

(** The [shouldChime] values of successive ticks, and the final state. *)
Fixpoint speech_run (isAvailable : bool) (v : VoiceCueEngine) (es : list Q)
    : list bool * VoiceCueEngine :=
  match es with
  | [] => ([], v)
  | e :: rest =>
      let '(v', sc, _) := speech_tick isAvailable v e in
      let '(scs, vf) := speech_run isAvailable v' rest in (sc :: scs, vf)
  end.

(** Example states of the buffer caches. *)
Definition example_ambient_cache : AmbientCache :=
  complete_all empty_cache [("rain.ogg", 1%nat); ("ocean.ogg", 2%nat); ("forest.ogg", 3%nat)].

Definition example_wind_cache : AmbientCache :=
  complete_all empty_cache [("wind.ogg", 1%nat); ("rain.ogg", 2%nat); ("ocean.ogg", 3%nat)].

Definition example_voice_fetch : VoiceFetch :=
  mkVFetch ∅ ∅ ["welcome.mp3"; "breathe.mp3"; "return.mp3"]%string.

(* ------------------------------------------------------------------ *)
(** ** Lemmas on the interpolator *)

Lemma Qleb_iff a b : Qleb a b = true <-> a <= b.
Proof. unfold Qleb. apply Qle_bool_iff. Qed.

Lemma Qltb_iff a b : Qltb a b = true <-> a < b.
Proof.
  unfold Qltb. rewrite negb_true_iff. split.
  - intros H. apply Qnot_le_lt. intros H'. apply Qle_bool_iff in H'. congruence.
  - intros H. destruct (Qle_bool b a) eqn:E; [|reflexivity].
    apply Qle_bool_iff in E. exfalso. apply (Qlt_not_le a b); assumption.
Qed.

Lemma env_sorted_head_le (x : FrequencyPoint) (rest : list FrequencyPoint) i a :
  env_sorted (x :: rest) -> (x :: rest) !! i = Some a -> time x <= time a.
Proof.
  intros Hs Hi.
  apply Sorted_StronglySorted in Hs; [|intros u v w; apply Qle_trans].
  destruct i as [|i]; simpl in Hi.
  - injection Hi as <-. apply Qle_refl.
  - inversion Hs as [|? ? _ Hall]; subst.
    exact (Forall_lookup_1 _ _ _ _ Hall Hi).
Qed.

Lemma env_sorted_tail (x : FrequencyPoint) (rest : list FrequencyPoint) :
  env_sorted (x :: rest) -> env_sorted rest.
Proof. intros Hs. exact (proj1 (Sorted_inv Hs)). Qed.

(** On ordered keyframes the search loop stops at the (unique) segment
    [env[i] .. env[i+1]] that brackets [t]. *)
Lemma find_segment_bracket (env : list FrequencyPoint) (t : Q) (i : nat)
    (a b : FrequencyPoint) :
  env_sorted env -> env !! i = Some a -> env !! S i = Some b ->
  time a <= t < time b -> find_segment env t = Some (a, b).
Proof.
  revert i. induction env as [|x rest IH]; intros i Hs Ha Hb [Hat Htb].
  - discriminate.
  - destruct rest as [|y rest'].
    + destruct i; discriminate.
    + simpl. destruct (Qleb (time x) t && Qltb t (time y)) eqn:E.
      * apply andb_true_iff in E as [E1 E2].
        apply Qleb_iff in E1. apply Qltb_iff in E2.
        destruct i as [|i].
        -- simpl in Ha, Hb. congruence.
        -- exfalso. simpl in Ha.
           pose proof (env_sorted_head_le y rest' i a (env_sorted_tail _ _ Hs) Ha).
           apply (Qlt_irrefl t). apply Qlt_le_trans with (time y); [exact E2|].
           apply Qle_trans with (time a); assumption.
      * destruct i as [|i].
        -- simpl in Ha, Hb. injection Ha as <-. injection Hb as <-.
           exfalso. apply Qleb_iff in Hat. apply Qltb_iff in Htb.
           rewrite Hat, Htb in E. discriminate.
        -- apply (IH i (env_sorted_tail _ _ Hs) Ha Hb). split; assumption.
Qed.

(** Between the first and last keyframe a bracketing segment exists. *)
Lemma bracket_exists (env : list FrequencyPoint) (t : Q) (x l : FrequencyPoint) :
  head env = Some x -> last env = Some l -> time x <= t -> t < time l ->
  exists i a b, env !! i = Some a /\ env !! S i = Some b /\ time a <= t < time b.
Proof.
  revert x. induction env as [|x0 rest IH]; intros x Hh Hl Hx Hlt.
  - discriminate.
  - simpl in Hh. injection Hh as <-.
    destruct rest as [|y rest'].
    + simpl in Hl. injection Hl as <-. exfalso.
      apply (Qlt_irrefl t). apply Qlt_le_trans with (time x0); assumption.
    + destruct (Qlt_le_dec t (time y)) as [Hty|Hyt].
      * exists 0%nat, x0, y. simpl. auto.
      * destruct (IH y eq_refl Hl Hyt Hlt) as (i & a & b & Ha & Hb & Hab).
        exists (S i), a, b. simpl. auto.
Qed.

(** C1: the interpolator returns the first keyframe's frequency up to
    the first time, the last keyframe's frequency from the last time on,
    and in between the linear interpolation [lerp_segment] (which returns
    [prev.beatFreq] on a zero-length segment) over the bracketing
    keyframes of an ordered envelope; an empty envelope gives the constant
    default 10.  On [[{0,8},{60,8},{120,4}]]: 90 gives 6, 0 gives 8 and
    200 gives 4. *)
Theorem interpolateFrequency_spec :
  (forall t, interpolateFrequency None t = 10) /\
  (forall (p : SessionPreset) (t : Q),
     frequencyEnvelope p = [] -> interpolateFrequency (Some p) t = 10) /\
  (forall (p : SessionPreset) (t : Q) (first lastp : FrequencyPoint),
     env_sorted (frequencyEnvelope p) ->
     head (frequencyEnvelope p) = Some first ->
     last (frequencyEnvelope p) = Some lastp ->
     (t <= time first -> interpolateFrequency (Some p) t = beatFreq first) /\
     (time first < t -> time lastp <= t ->
        interpolateFrequency (Some p) t = beatFreq lastp) /\
     (time first < t -> t < time lastp ->
        (exists i prev next, frequencyEnvelope p !! i = Some prev /\
           frequencyEnvelope p !! S i = Some next /\ time prev <= t < time next) /\
        (forall i prev next, frequencyEnvelope p !! i = Some prev ->
           frequencyEnvelope p !! S i = Some next -> time prev <= t < time next ->
           interpolateFrequency (Some p) t = lerp_segment prev next t))) /\
  (interpolateFrequency (Some example_preset) 90 == 6 /\
   interpolateFrequency (Some example_preset) 0 = 8 /\
   interpolateFrequency (Some example_preset) 200 = 4).
Proof.
  split; [reflexivity|]. split.
  { intros p t He. simpl. rewrite He. reflexivity. }
  split.
  2: { split; [reflexivity|]. split; reflexivity. }
  intros p t first lastp Hs Hh Hl. simpl.
  destruct (frequencyEnvelope p) as [|e0 [|e1 r]] eqn:Henv.
  - discriminate.
  - simpl in Hh, Hl. injection Hh as <-. injection Hl as <-. simpl.
    split; [auto|]. split; [auto|].
    intros H1 H2. exfalso. apply (Qlt_irrefl t).
    apply Qlt_trans with (time e0); assumption.
  - simpl in Hh. injection Hh as <-.
    assert (Hint : interpolate_env (e0 :: e1 :: r) t =
      if Qleb t (time e0) then beatFreq e0
      else if Qleb (time lastp) t then beatFreq lastp
      else let '(prev, next) := default (e0, lastp) (find_segment (e0 :: e1 :: r) t) in
           lerp_segment prev next t).
    { unfold interpolate_env. rewrite Hl. reflexivity. }
    rewrite Hint. clear Hint.
    split.
    { intros Ht. apply Qleb_iff in Ht. rewrite Ht. reflexivity. }
    split.
    { intros H1 H2.
      destruct (Qleb t (time e0)) eqn:E.
      - apply Qleb_iff in E. exfalso. apply (Qlt_not_le _ _ H1 E).
      - apply Qleb_iff in H2. rewrite H2. reflexivity. }
    intros H1 H2. split.
    { apply (bracket_exists (e0 :: e1 :: r) t e0 lastp eq_refl Hl); [apply Qlt_le_weak|]; assumption. }
    intros i prev next Hp Hn Hb.
    destruct (Qleb t (time e0)) eqn:E.
    { apply Qleb_iff in E. exfalso. apply (Qlt_not_le _ _ H1 E). }
    destruct (Qleb (time lastp) t) eqn:E'.
    { apply Qleb_iff in E'. exfalso. apply (Qlt_not_le _ _ H2 E'). }
    rewrite (find_segment_bracket _ t i prev next Hs Hp Hn Hb). reflexivity.
Qed.

(* ------------------------------------------------------------------ *)
(** ** Session clock *)

Lemma Qleb_false a b : Qleb a b = false <-> b < a.
Proof.
  split.
  - intros H. apply Qnot_le_lt. intros H'. apply Qleb_iff in H'. congruence.
  - intros H. destruct (Qleb a b) eqn:E; [|reflexivity].
    apply Qleb_iff in E. exfalso. exact (Qlt_not_le _ _ H E).
Qed.

Lemma Qltb_false a b : Qltb a b = false <-> b <= a.
Proof.
  unfold Qltb. rewrite negb_false_iff. apply Qle_bool_iff.
Qed.

Ltac qbools :=
  repeat match goal with
  | H : Qleb _ _ = true |- _ => apply Qleb_iff in H
  | H : Qleb _ _ = false |- _ => apply Qleb_false in H
  | H : Qltb _ _ = true |- _ => apply Qltb_iff in H
  | H : Qltb _ _ = false |- _ => apply Qltb_false in H
  end.

Lemma seek_fields (s : Session) (p : SessionPreset) (t now : Q) :
  preset s = Some p ->
  let s' := fst (seek s t now) in
  preset s' = Some p /\ startTime s' = startTime s /\ pausedAt s' = pausedAt s /\
  _elapsed s' = Qmax 0 (Qmin t (duration p - (1#10))) /\
  pauseOffset s' = (if Qltb 0 (pausedAt s) then pausedAt s else now) - startTime s
                   - Qmax 0 (Qmin t (duration p - (1#10))) * 1000.
Proof.
  intros Hp. destruct s as [pr st pa po ph el eng tl]. simpl in Hp. subst pr.
  unfold seek. simpl.
  repeat split; reflexivity.
Qed.

(** C2 (corrected): [seek(t)] sets [elapsed] to the clamped target
    [max(0, min(t, duration - 0.1))], which is [t] itself on
    [[0, duration - 0.1]]; the clock formula at the reference time
    ([pausedAt] when paused, [now] otherwise) gives the same value,
    [startTime] is untouched, and seeking again to the same target, at
    any later time, leaves [elapsed] unchanged. *)
Theorem seek_elapsed_clamped (s : Session) (p : SessionPreset) (t now : Q) :
  preset s = Some p ->
  let s' := fst (seek s t now) in
  let refNow := if Qltb 0 (pausedAt s) then pausedAt s else now in
  _elapsed s' = Qmax 0 (Qmin t (duration p - (1#10))) /\
  (0 <= t <= duration p - (1#10) -> _elapsed s' == t) /\
  clock s' refNow == _elapsed s' /\
  startTime s' = startTime s /\
  (forall now', _elapsed (fst (seek s' t now')) = _elapsed s' /\
                startTime (fst (seek s' t now')) = startTime s).
Proof.
  intros Hp s' refNow.
  destruct (seek_fields s p t now Hp) as (Hp' & Hst & Hpa & Hel & Hpo).
  fold s' in Hp', Hst, Hpa, Hel, Hpo.
  split; [exact Hel|]. split.
  { intros [H0 H1]. rewrite Hel.
    rewrite Q.min_l by exact H1. rewrite Q.max_r by exact H0. reflexivity. }
  split.
  { unfold clock. rewrite Hst, Hpo, Hel. fold refNow. field. }
  split; [exact Hst|].
  intros now'. destruct (seek_fields s' p t now' Hp') as (_ & Hst2 & _ & Hel2 & _).
  split; [congruence|]. rewrite Hst2. exact Hst.
Qed.

(** C2: near the end of the session the clamp moves the target, so
    [elapsed = t] fails for [t = 119.95] in a 120-second session. *)
Lemma seek_elapsed_counterexample :
  0 <= 11995#100 < duration example_preset /\
  ~ (_elapsed (fst (seek example_session (11995#100) 5000)) == 11995#100).
Proof.
  split.
  - split; [apply Qleb_iff | apply Qltb_iff]; reflexivity.
  - vm_compute. discriminate.
Qed.

Lemma seek_elapsed_clamped_witness :
  preset example_session = Some example_preset /\
  (let s' := fst (seek example_session 30 5000) in
   let refNow := if Qltb 0 (pausedAt example_session) then pausedAt example_session else 5000 in
   _elapsed s' = Qmax 0 (Qmin 30 (duration example_preset - (1#10))) /\
   (0 <= 30 <= duration example_preset - (1#10) -> _elapsed s' == 30) /\
   clock s' refNow == _elapsed s' /\
   startTime s' = startTime example_session /\
   (forall now', _elapsed (fst (seek s' 30 now')) = _elapsed s' /\
                 startTime (fst (seek s' 30 now')) = startTime example_session)).
Proof.
  split; [reflexivity|].
  apply (seek_elapsed_clamped example_session example_preset 30 5000). reflexivity.
Defined.

(** C5: [seek] has no guard for a completed session (unlike [pause] and
    the visibility handler): after the example session completes at
    [now = 122000], [seek(30)] moves the phase back to [induction]. *)
Lemma seek_leaves_complete (Math_sin : Q -> Q) (Math_PI : Q) :
  let sc := fst (tick Math_sin Math_PI example_session 122000) in
  _phase sc = Complete /\ tickLoop sc = false /\
  _phase (fst (seek sc 30 123000)) = Induction.
Proof. vm_compute. repeat split. Qed.

(** C6: pausing a running session at [now1] and resuming it at [now2]
    leaves the clock formula unchanged: the clock at [now2] right after
    [resume] equals the clock at [now1] right before [pause]; the
    [elapsed] field and the phase are untouched and the tick loop runs
    again. *)
Theorem pause_resume_clock (s : Session) (p : SessionPreset) (now1 now2 : Q) :
  preset s = Some p -> pausedAt s = 0 ->
  _phase s <> Idle -> _phase s <> Complete ->
  0 < now1 -> clock s now1 < duration p ->
  let s' := fst (resume (pause s now1) now2) in
  clock s' now2 == clock s now1 /\ _elapsed s' = _elapsed s /\
  _phase s' = _phase s /\ pausedAt s' = 0 /\ tickLoop s' = true /\
  startTime s' = startTime s.
Proof.
  intros Hp Hpa Hi Hc Hn1 Hcl.
  destruct s as [pr st pa po ph el eng tl]; simpl in *. subst pr pa.
  assert (Hpause : pause (mkSession (Some p) st 0 po ph el eng tl) now1 =
                   mkSession (Some p) st now1 po ph el eng false).
  { unfold pause. simpl.
    destruct ph; try congruence; reflexivity. }
  rewrite Hpause. unfold resume. simpl.
  assert (Hz : Qeq_bool now1 0 = false).
  { destruct (Qeq_bool now1 0) eqn:E; [|reflexivity].
    apply Qeq_bool_iff in E. rewrite E in Hn1. discriminate. }
  rewrite Hz.
  assert (Heq : (now2 - st - (po + (now2 - now1))) / 1000 == clock (mkSession (Some p) st 0 po ph el eng tl) now1).
  { unfold clock. simpl. field. }
  destruct (Qleb (duration p) ((now2 - st - (po + (now2 - now1))) / 1000)) eqn:E.
  { apply Qleb_iff in E. rewrite Heq in E. exfalso. exact (Qlt_not_le _ _ Hcl E). }
  simpl. repeat split; try reflexivity.
  unfold clock. simpl. field.
Qed.

Lemma pause_resume_clock_witness :
  preset example_session = Some example_preset /\ pausedAt example_session = 0 /\
  _phase example_session <> Idle /\ _phase example_session <> Complete /\
  0 < 31000 /\ clock example_session 31000 < duration example_preset /\
  (let s' := fst (resume (pause example_session 31000) 95000) in
   clock s' 95000 == clock example_session 31000 /\ _elapsed s' = _elapsed example_session /\
   _phase s' = _phase example_session /\ pausedAt s' = 0 /\ tickLoop s' = true /\
   startTime s' = startTime example_session).
Proof.
  assert (H1 : 0 < 31000) by (apply Qltb_iff; reflexivity).
  assert (H2 : clock example_session 31000 < duration example_preset)
    by (apply Qltb_iff; reflexivity).
  assert (H3 : _phase example_session <> Idle) by (vm_compute; discriminate).
  assert (H4 : _phase example_session <> Complete) by (vm_compute; discriminate).
  refine (conj eq_refl (conj eq_refl (conj H3 (conj H4 (conj H1 (conj H2 _)))))).
  exact (pause_resume_clock example_session example_preset 31000 95000
           eq_refl eq_refl H3 H4 H1 H2).
Defined.

(* ------------------------------------------------------------------ *)
(** ** Phase machine *)

Lemma tick_fields (Math_sin : Q -> Q) (Math_PI : Q) (s : Session) (p : SessionPreset) (now : Q) :
  preset s = Some p -> Qltb 0 (pausedAt s) = false ->
  let s' := fst (tick Math_sin Math_PI s now) in
  preset s' = Some p /\ startTime s' = startTime s /\ pausedAt s' = pausedAt s /\
  pauseOffset s' = pauseOffset s /\ _elapsed s' = clock s now /\
  _phase s' = tick_phase p (clock s now).
Proof.
  intros Hp Hpa. destruct s as [pr st pa po ph el eng tl]; simpl in Hp, Hpa.
  subst pr. unfold tick, tick_phase. simpl. rewrite Hpa.
  destruct (Qleb (duration p) (clock _ now)); simpl; repeat split.
Qed.

Lemma clock_mono (s : Session) (n1 n2 : Q) : n1 <= n2 -> clock s n1 <= clock s n2.
Proof.
  intros H. unfold clock, Qdiv. apply Qmult_le_r; [reflexivity|]. lra.
Qed.

Lemma clock_congr (s s' : Session) (n : Q) :
  startTime s' = startTime s -> pauseOffset s' = pauseOffset s -> clock s' n = clock s n.
Proof. intros H1 H2. unfold clock. rewrite H1, H2. reflexivity. Qed.

Lemma phase_at_mono (p : SessionPreset) (t1 t2 : Q) :
  t1 <= t2 -> (phase_rank (phase_at p t1) <= phase_rank (phase_at p t2))%nat.
Proof.
  intros Ht. unfold phase_at.
  destruct (frequencyEnvelope p) as [|e0 [|e1 r]]; [simpl; lia|simpl; lia|].
  set (rs := if Nat.leb 3 _ then _ else _).
  destruct (Qltb t1 (time e1)) eqn:E1, (Qltb t2 (time e1)) eqn:E2;
    destruct (hasReturnPhase p); destruct (Qltb rs t1) eqn:E3, (Qltb rs t2) eqn:E4;
    simpl; qbools; try lia; exfalso; lra.
Qed.

Lemma tick_phase_mono (p : SessionPreset) (t1 t2 : Q) :
  t1 <= t2 -> (phase_rank (tick_phase p t1) <= phase_rank (tick_phase p t2))%nat.
Proof.
  intros Ht. unfold tick_phase.
  destruct (Qleb (duration p) t1) eqn:E1, (Qleb (duration p) t2) eqn:E2; qbools.
  - lia.
  - exfalso. lra.
  - destruct (phase_at p t1); simpl; lia.
  - apply phase_at_mono. exact Ht.
Qed.

Lemma run_ticks_map (Math_sin : Q -> Q) (Math_PI : Q) (s : Session) (p : SessionPreset)
    (nows : list Q) :
  preset s = Some p -> Qltb 0 (pausedAt s) = false ->
  run_ticks Math_sin Math_PI s nows = map (fun now => tick_phase p (clock s now)) nows.
Proof.
  revert s. induction nows as [|n rest IH]; intros s Hp Hpa; [reflexivity|].
  simpl. destruct (tick_fields Math_sin Math_PI s p n Hp Hpa)
    as (Hp' & Hst & Hpa' & Hpo & _ & Hph).
  rewrite Hph. f_equal.
  rewrite (IH _ Hp'); [|rewrite Hpa'; exact Hpa].
  apply map_ext. intros m. rewrite (clock_congr _ _ m Hst Hpo). reflexivity.
Qed.

Lemma lookup_map_inv {A B : Type} (f : A -> B) (l : list A) (i : nat) (y : B) :
  map f l !! i = Some y -> exists x, l !! i = Some x /\ y = f x.
Proof.
  revert i. induction l as [|x l IH]; intros i H; [discriminate|].
  destruct i as [|i]; simpl in H.
  - injection H as <-. exists x. auto.
  - exact (IH i H).
Qed.

Lemma sorted_lookup_le (l : list Q) (i j : nat) (a b : Q) :
  Sorted Qle l -> (i <= j)%nat -> l !! i = Some a -> l !! j = Some b -> a <= b.
Proof.
  intros Hs. apply Sorted_StronglySorted in Hs; [|intros u v w; apply Qle_trans].
  revert i j. induction Hs as [|x l Hs IH Hall]; intros i j Hij Ha Hb; [discriminate|].
  destruct i as [|i], j as [|j]; simpl in Ha, Hb.
  - injection Ha as <-. injection Hb as <-. apply Qle_refl.
  - injection Ha as <-. exact (Forall_lookup_1 _ _ _ _ Hall Hb).
  - lia.
  - apply (IH i j); [lia|assumption|assumption].
Qed.

(** C4 (corrected): on a session that is running, the phases reported by
    ticks at nondecreasing clock readings follow the rule [tick_phase]
    (complete from [duration] on, otherwise induction while
    [t < env[1].time], return while [t > returnStart], main otherwise)
    and never go back in the order induction < main < return < complete:
    no phase is revisited.  A phase whose time span no tick falls into is
    skipped. *)
Theorem tick_phases_monotone (Math_sin : Q -> Q) (Math_PI : Q) (s : Session)
    (p : SessionPreset) (nows : list Q) :
  preset s = Some p -> pausedAt s = 0 -> hasReturnPhase p = true -> Sorted Qle nows ->
  run_ticks Math_sin Math_PI s nows = map (fun now => tick_phase p (clock s now)) nows /\
  (forall (i j : nat) (ph ph' : SessionPhase), (i <= j)%nat ->
     run_ticks Math_sin Math_PI s nows !! i = Some ph ->
     run_ticks Math_sin Math_PI s nows !! j = Some ph' ->
     (phase_rank ph <= phase_rank ph')%nat).
Proof.
  intros Hp Hpa _ Hs.
  assert (Hpa' : Qltb 0 (pausedAt s) = false) by (rewrite Hpa; reflexivity).
  pose proof (run_ticks_map Math_sin Math_PI s p nows Hp Hpa') as Hmap.
  split; [exact Hmap|].
  intros i j ph ph' Hij Hi Hj. rewrite Hmap in Hi, Hj.
  apply lookup_map_inv in Hi as (a & Ha & ->).
  apply lookup_map_inv in Hj as (b & Hb & ->).
  apply tick_phase_mono. apply clock_mono.
  exact (sorted_lookup_le nows i j a b Hs Hij Ha Hb).
Qed.

Lemma example_nows_sorted : Sorted Qle example_nows.
Proof.
  unfold example_nows.
  repeat constructor; apply Qleb_iff; reflexivity.
Qed.

Lemma tick_phases_monotone_witness :
  preset example_session = Some example_preset /\ pausedAt example_session = 0 /\
  hasReturnPhase example_preset = true /\ Sorted Qle example_nows /\
  (run_ticks (fun _ => 0) 0 example_session example_nows =
     map (fun now => tick_phase example_preset (clock example_session now)) example_nows /\
   (forall (i j : nat) (ph ph' : SessionPhase), (i <= j)%nat ->
      run_ticks (fun _ => 0) 0 example_session example_nows !! i = Some ph ->
      run_ticks (fun _ => 0) 0 example_session example_nows !! j = Some ph' ->
      (phase_rank ph <= phase_rank ph')%nat)).
Proof.
  refine (conj eq_refl (conj eq_refl (conj eq_refl (conj example_nows_sorted _)))).
  exact (tick_phases_monotone (fun _ => 0) 0 example_session example_preset example_nows
           eq_refl eq_refl eq_refl example_nows_sorted).
Defined.

(** C4: on the envelope [[{0,8},{60,8},{120,4}]] of a 120-second session
    with a return phase, [main] holds only at [t = 60]; ticks at elapsed
    0, 59, 61, 119 and 121 go from induction straight to return and
    complete, skipping main. *)
Lemma tick_phases_skip_main_any (Math_sin : Q -> Q) (Math_PI : Q) :
  hasReturnPhase example_preset = true /\ Sorted Qle example_nows /\
  clock example_session 1000 == 0 /\
  duration example_preset <= clock example_session 122000 /\
  run_ticks Math_sin Math_PI example_session example_nows
    = [Induction; Induction; Return; Return; Complete] /\
  ~ In Main (run_ticks Math_sin Math_PI example_session example_nows).
Proof.
  split; [reflexivity|]. split; [exact example_nows_sorted|].
  split; [reflexivity|]. split; [apply Qleb_iff; reflexivity|].
  assert (H : run_ticks Math_sin Math_PI example_session example_nows
              = [Induction; Induction; Return; Return; Complete]) by (vm_compute; reflexivity).
  split; [exact H|]. rewrite H. simpl. intuition discriminate.
Qed.

(** The same run, with [Math.sin] taken as the zero function (the phases
    do not depend on it). *)
Lemma tick_phases_skip_main :
  run_ticks (fun _ => 0) 0 example_session example_nows
    = [Induction; Induction; Return; Return; Complete] /\
  ~ In Main (run_ticks (fun _ => 0) 0 example_session example_nows).
Proof.
  destruct (tick_phases_skip_main_any (fun _ => 0) 0) as (_ & _ & _ & _ & H1 & H2).
  split; [exact H1|exact H2].
Qed.

(* ------------------------------------------------------------------ *)
(** ** Beat frequency of a tick *)

(** C10: a tick before [duration] reports the phase of [phase_at] and the
    beat frequency [max(interpolate(t) + 0.3 * sin(2 * pi * t / 45), 0.1)]
    in [main], [max(interpolate(t), 0.1)] in the other phases (induction
    and return); the value is at least 0.1 and is the target of the tone
    engine's ramp whenever it moves by more than 0.01 Hz. *)
Theorem tick_emitted_beatFreq (Math_sin : Q -> Q) (Math_PI : Q) (s : Session)
    (p : SessionPreset) (now : Q) :
  preset s = Some p -> pausedAt s = 0 -> clock s now < duration p ->
  let t := clock s now in
  exists targetFreq,
    snd (tick Math_sin Math_PI s now) = Some (mkSnapshot (phase_at p t) t targetFreq) /\
    (phase_at p t = Main ->
       targetFreq = Qmax (interpolateFrequency (Some p) t
                          + Math_sin (t * 2 * Math_PI / 45) * (3#10)) (1#10)) /\
    (phase_at p t <> Main -> targetFreq = Qmax (interpolateFrequency (Some p) t) (1#10)) /\
    (1#10) <= targetFreq /\
    (phase_at p t = Induction \/ phase_at p t = Main \/ phase_at p t = Return) /\
    engine (fst (tick Math_sin Math_PI s now)) =
      (if Qltb (1#100) (Qabs (targetFreq - _currentBeatFreq (engine s)))
       then rampBeatFrequency (engine s) targetFreq else engine s).
Proof.
  intros Hp Hpa Hcl t.
  destruct s as [pr st pa po ph el eng tl]; simpl in Hp, Hpa. subst pr pa.
  assert (Hd : Qleb (duration p) t = false) by (apply Qleb_false; exact Hcl).
  unfold tick. simpl. fold t. rewrite Hd. simpl.
  set (base := interpolateFrequency (Some p) t).
  set (tf := Qmax (if SessionPhase_eqb (phase_at p t) Main
                   then base + Math_sin (t * 2 * Math_PI / 45) * (3#10) else base) (1#10)).
  exists tf. split; [reflexivity|]. split.
  { intros Hm. unfold tf. rewrite Hm. reflexivity. }
  split.
  { intros Hm. unfold tf. destruct (phase_at p t); try reflexivity. congruence. }
  split; [apply Q.le_max_r|]. split.
  { unfold phase_at. destruct (frequencyEnvelope p) as [|e0 [|e1 r]]; auto.
    destruct (Qltb t (time e1)); auto.
    destruct (hasReturnPhase p && _); auto. }
  reflexivity.
Qed.

Lemma tick_emitted_beatFreq_witness :
  preset example_session = Some example_preset /\ pausedAt example_session = 0 /\
  clock example_session 91000 < duration example_preset /\
  (let t := clock example_session 91000 in
   exists targetFreq,
    snd (tick (fun _ => 0) 0 example_session 91000)
      = Some (mkSnapshot (phase_at example_preset t) t targetFreq) /\
    (phase_at example_preset t = Main ->
       targetFreq = Qmax (interpolateFrequency (Some example_preset) t
                          + (fun _ => 0) (t * 2 * 0 / 45) * (3#10)) (1#10)) /\
    (phase_at example_preset t <> Main ->
       targetFreq = Qmax (interpolateFrequency (Some example_preset) t) (1#10)) /\
    (1#10) <= targetFreq /\
    (phase_at example_preset t = Induction \/ phase_at example_preset t = Main \/
     phase_at example_preset t = Return) /\
    engine (fst (tick (fun _ => 0) 0 example_session 91000)) =
      (if Qltb (1#100) (Qabs (targetFreq - _currentBeatFreq (engine example_session)))
       then rampBeatFrequency (engine example_session) targetFreq
       else engine example_session)).
Proof.
  assert (H : clock example_session 91000 < duration example_preset)
    by (apply Qltb_iff; reflexivity).
  refine (conj eq_refl (conj eq_refl (conj H _))).
  exact (tick_emitted_beatFreq (fun _ => 0) 0 example_session example_preset 91000
           eq_refl eq_refl H).
Defined.

(* ------------------------------------------------------------------ *)
(** ** Tone engine *)

Lemma Forall2_map_r {A B : Type} (R R' : A -> B -> Prop) (P : A -> Prop) (f : B -> B)
    (l1 : list A) (l2 : list B) :
  Forall2 R l1 l2 -> Forall P l1 ->
  (forall x y, R x y -> P x -> R' x (f y)) -> Forall2 R' l1 (map f l2).
Proof.
  intros H HP Hf. induction H as [|x y l1 l2 Hxy _ IH]; simpl; constructor.
  - inversion HP; subst. apply Hf; assumption.
  - inversion HP; subst. apply IH; assumption.
Qed.

Lemma Qmax_floor_id (x : Q) : (1#100) <= x -> Qmax x (1#100) = x.
Proof.
  intros H. unfold Qmax, GenericMinMax.gmax.
  destruct (x ?= 1#100) eqn:E; try reflexivity.
  exfalso. apply Qlt_alt in E. exact (Qlt_not_le _ _ E H).
Qed.

(** The engine creates, for every carrier layer, a left oscillator at
    [carrierFreq] and a right oscillator at [carrierFreq + beatFreq], both
    gains [10^(gainDb/20) * 0.3], panned -1 and +1; every beat-frequency
    update ([setBeatFrequency], and [rampBeatFrequency] when the target
    stays above its 0.01 Hz floor) moves every right oscillator to
    [carrierFreq + newBeatFreq], whatever the layer's [fixedBeatFreq]. *)
Theorem engine_layers_track_beat (Math_pow : Q -> Q -> Q) (layers : list CarrierLayer)
    (beat : Q) :
  (engine_tracks Math_pow layers (startWithContext Math_pow layers beat) /\
   _currentBeatFreq (startWithContext Math_pow layers beat) = beat) /\
  (forall (e : BinauralEngine) (b : Q), engine_tracks Math_pow layers e ->
     engine_tracks Math_pow layers (setBeatFrequency e b) /\
     _currentBeatFreq (setBeatFrequency e b) = b) /\
  (forall (e : BinauralEngine) (b : Q), engine_tracks Math_pow layers e ->
     Forall (fun layer => (1#100) <= carrierFreq layer + b) layers ->
     engine_tracks Math_pow layers (rampBeatFrequency e b) /\
     _currentBeatFreq (rampBeatFrequency e b) = b).
Proof.
  split; [|split].
  - split; [|reflexivity]. split; [reflexivity|]. simpl.
    induction layers as [|l ls IH]; simpl; constructor; [|exact IH].
    unfold pair_matches, createPair. simpl. repeat split.
  - intros e b [Hrun Hf]. unfold setBeatFrequency. rewrite Hrun. simpl.
    split; [|reflexivity]. split; [reflexivity|].
    apply (Forall2_map_r _ _ (fun _ => True) _ _ _ Hf).
    + apply Forall_true. auto.
    + intros layer pr (H1 & H2 & H3 & H4 & H5 & H6 & H7) _.
      unfold pair_matches, with_right. simpl. rewrite H7. auto 8.
  - intros e b [Hrun Hf] Hfl. unfold rampBeatFrequency. rewrite Hrun.
    destruct (Qltb (Qabs (b - _currentBeatFreq e)) 1); simpl;
      (split; [|reflexivity]); (split; [reflexivity|]);
      apply (Forall2_map_r _ _ _ _ _ _ Hf Hfl);
      intros layer pr (H1 & H2 & H3 & H4 & H5 & H6 & H7) Hb;
      unfold pair_matches, with_right; simpl; rewrite H7;
      [auto 8|rewrite (Qmax_floor_id _ Hb); auto 8].
Qed.

(** The master track's gamma layer declares [fixedBeatFreq = 40], yet
    its right oscillator is created at [400 + beatFreq] (401.5 at a
    1.5 Hz beat, not 440) and follows every beat-frequency update. *)
Lemma gamma_layer_not_fixed_any (Math_pow : Q -> Q -> Q) :
  fixedBeatFreq gamma_layer = Some 40 /\
  rightFreq (createPair Math_pow gamma_layer (3#2)) == 803#2 /\
  ~ (rightFreq (createPair Math_pow gamma_layer (3#2)) == carrierFreq gamma_layer + 40) /\
  map rightFreq (pairs (setBeatFrequency (startWithContext Math_pow [gamma_layer] (3#2)) 4))
    = [carrierFreq gamma_layer + 4].
Proof.
  split; [reflexivity|]. split; [reflexivity|]. split.
  - vm_compute. discriminate.
  - reflexivity.
Qed.

(** C3 (code bug): the gamma layer of the master track
    (src/src/audio/tracks/asgepMasterTrack.ts) declares
    [fixedBeatFreq = 40] and is documented as the 40 Hz overlay at
    400/440 Hz, but [createPair], [setBeatFrequency] and
    [rampBeatFrequency] never read [fixedBeatFreq]: at a 1.5 Hz beat its
    right oscillator is created at 401.5 Hz, not 440 Hz, and a later
    [setBeatFrequency(4)] or [rampBeatFrequency(4)] moves it to 404 Hz. *)
Theorem gamma_layer_not_fixed :
  fixedBeatFreq gamma_layer = Some 40 /\
  ~ (rightFreq (createPair pow_int gamma_layer (3#2)) == carrierFreq gamma_layer + 40) /\
  map rightFreq (pairs (setBeatFrequency (startWithContext pow_int [gamma_layer] (3#2)) 4))
    = [carrierFreq gamma_layer + 4] /\
  map rightFreq (pairs (rampBeatFrequency (startWithContext pow_int [gamma_layer] (3#2)) 4))
    = [carrierFreq gamma_layer + 4].
Proof.
  destruct (gamma_layer_not_fixed_any pow_int) as (H1 & _ & H3 & H4).
  split; [exact H1|]. split; [exact H3|]. split; [exact H4|].
  vm_compute. reflexivity.
Qed.

(* ------------------------------------------------------------------ *)
(** ** Narration cursor *)

Lemma sorted_lookup_le_by {A : Type} (f : A -> Q) (l : list A) (i j : nat) (a b : A) :
  Sorted (fun x y => f x <= f y) l -> (i <= j)%nat -> l !! i = Some a -> l !! j = Some b ->
  f a <= f b.
Proof.
  intros Hs. apply Sorted_StronglySorted in Hs; [|intros u v w; apply Qle_trans].
  revert i j. induction Hs as [|x l Hs IH Hall]; intros i j Hij Ha Hb; [discriminate|].
  destruct i as [|i], j as [|j]; simpl in Ha, Hb.
  - injection Ha as <-. injection Hb as <-. apply Qle_refl.
  - injection Ha as <-. exact (Forall_lookup_1 _ _ _ _ Hall Hb).
  - lia.
  - apply (IH i j); [lia|assumption|assumption].
Qed.

Lemma first_at_or_after_before (l : list VoiceCue) (t : Q) (i : nat) (c : VoiceCue) :
  (i < first_at_or_after l t)%nat -> l !! i = Some c -> cue_time c < t.
Proof.
  revert i. induction l as [|c0 rest IH]; intros i Hi Hc; [discriminate|].
  simpl in Hi. destruct (Qleb t (cue_time c0)) eqn:E; [lia|].
  destruct i as [|i]; simpl in Hc.
  - injection Hc as <-. apply Qleb_false. exact E.
  - apply (IH i); [lia|exact Hc].
Qed.


Lemma first_at_or_after_unique (l : list VoiceCue) (t : Q) (k : nat) :
  (forall i c, (i < k)%nat -> l !! i = Some c -> cue_time c < t) ->
  (forall c, l !! k = Some c -> t <= cue_time c) ->
  (k <= length l)%nat ->
  first_at_or_after l t = k.
Proof.
  revert k. induction l as [|c0 rest IH]; intros k Hlt Hge Hk.
  - simpl in *. lia.
  - simpl. destruct k as [|k].
    + rewrite (proj2 (Qleb_iff _ _) (Hge c0 eq_refl)). reflexivity.
    + assert (H0 : cue_time c0 < t) by (apply (Hlt 0%nat); [lia|reflexivity]).
      rewrite (proj2 (Qleb_false _ _) H0). f_equal.
      apply IH.
      * intros i c Hi Hc. apply (Hlt (S i)); [lia|exact Hc].
      * intros c Hc. exact (Hge c Hc).
      * simpl in Hk. lia.
Qed.

Lemma div2_between (lo hi : nat) :
  (lo < hi)%nat -> (lo <= Nat.div2 (lo + hi) < hi)%nat.
Proof.
  intros H. pose proof (Nat.div2_odd (lo + hi)) as E.
  destruct (Nat.odd (lo + hi)); simpl in E; lia.
Qed.

Lemma bsearch_correct (l : list VoiceCue) (t : Q) (fuel lo hi : nat) :
  cues_sorted l -> (lo <= hi)%nat -> (hi <= length l)%nat -> (hi - lo <= fuel)%nat ->
  (forall i c, (i < lo)%nat -> l !! i = Some c -> cue_time c < t) ->
  (forall i c, (hi <= i)%nat -> l !! i = Some c -> t <= cue_time c) ->
  bsearch l t fuel lo hi = first_at_or_after l t.
Proof.
  intros Hs. revert lo hi.
  induction fuel as [|f IH]; intros lo hi Hlh Hhl Hf Hlo Hhi; simpl.
  - symmetry. apply first_at_or_after_unique; [exact Hlo| |lia].
    intros c Hc. apply (Hhi lo); [lia|exact Hc].
  - destruct (Nat.ltb lo hi) eqn:Elh.
    + apply Nat.ltb_lt in Elh. destruct (div2_between lo hi Elh) as [Hm1 Hm2].
      set (mid := Nat.div2 (lo + hi)) in *.
      destruct (lookup_lt_is_Some_2 l mid) as [cm Hcm]; [lia|].
      unfold cue_time_at. rewrite Hcm. simpl.
      destruct (Qltb (cue_time cm) t) eqn:E.
      * apply Qltb_iff in E. apply IH; [lia|lia|lia| |exact Hhi].
        intros i c Hi Hc. destruct (Nat.lt_ge_cases i lo) as [Hil|Hil].
        -- exact (Hlo i c Hil Hc).
        -- apply Qle_lt_trans with (cue_time cm); [|exact E].
           apply (sorted_lookup_le_by cue_time l i mid c cm Hs); [lia|exact Hc|exact Hcm].
      * apply Qltb_false in E. apply IH; [lia|lia|lia|exact Hlo|].
        intros i c Hi Hc. apply Qle_trans with (cue_time cm); [exact E|].
        apply (sorted_lookup_le_by cue_time l mid i cm c Hs); [lia|exact Hcm|exact Hc].
    + apply Nat.ltb_ge in Elh. symmetry. apply first_at_or_after_unique; [exact Hlo| |lia].
      intros c Hc. apply (Hhi lo); [lia|exact Hc].
Qed.







(* ------------------------------------------------------------------ *)
(** ** Instances of the interpolator and tone-engine statements *)

Lemma interpolateFrequency_spec_witness :
  env_sorted example_env /\
  interpolateFrequency (Some example_preset) 90 = lerp_segment (mkFP 60 8) (mkFP 120 4) 90.
Proof.
  assert (Hs : env_sorted example_env).
  { unfold env_sorted, example_env.
    repeat constructor; simpl; apply Qleb_iff; reflexivity. }
  split; [exact Hs|].
  destruct interpolateFrequency_spec as (_ & _ & H & _).
  destruct (H example_preset 90 (mkFP 0 8) (mkFP 120 4) Hs eq_refl eq_refl) as (_ & _ & H3).
  assert (Ha : time (mkFP 0 8) < 90) by (apply Qltb_iff; reflexivity).
  assert (Hb : 90 < time (mkFP 120 4)) by (apply Qltb_iff; reflexivity).
  assert (Hc : time (mkFP 60 8) <= 90 < time (mkFP 120 4))
    by (split; [apply Qleb_iff|apply Qltb_iff]; reflexivity).
  exact (proj2 (H3 Ha Hb) 1%nat (mkFP 60 8) (mkFP 120 4) eq_refl eq_refl Hc).
Defined.

Lemma engine_layers_track_beat_witness :
  Forall (fun layer => (1#100) <= carrierFreq layer + 4) [gamma_layer] /\
  _currentBeatFreq (rampBeatFrequency (startWithContext pow_int [gamma_layer] (3#2)) 4) = 4.
Proof.
  assert (Hf : Forall (fun layer => (1#100) <= carrierFreq layer + 4) [gamma_layer])
    by (repeat constructor; apply Qleb_iff; reflexivity).
  split; [exact Hf|].
  destruct (engine_layers_track_beat pow_int [gamma_layer] (3#2)) as ([Ht _] & _ & Hr).
  exact (proj2 (Hr _ 4 Ht Hf)).
Defined.

(* ------------------------------------------------------------------ *)
(** ** Decoded-buffer cache *)

Lemma delete_all_notin (ks : list string) (m : gmap string AudioBuffer) (x : string) :
  ~ In x ks -> delete_all m ks !! x = m !! x.
Proof.
  unfold delete_all. revert m. induction ks as [|k rest IH]; intros m Hin; [reflexivity|].
  apply not_in_cons in Hin as [Hne Hin]. simpl. rewrite IH by exact Hin.
  apply lookup_delete_ne. congruence.
Qed.

Lemma delete_all_in (ks : list string) (m : gmap string AudioBuffer) (x : string) :
  In x ks -> delete_all m ks !! x = None.
Proof.
  revert m. induction ks as [|k rest IH]; intros m Hin; [destruct Hin|].
  destruct (in_dec String.string_dec x rest) as [Hr|Hr]; [exact (IH _ Hr)|].
  destruct Hin as [<-|Hin]; [|contradiction].
  change (delete_all (delete k m) rest !! k = None).
  rewrite delete_all_notin by exact Hr. apply lookup_delete_eq.
Qed.

Lemma evict_spec (m : gmap string AudioBuffer) (o : list string) :
  evict m o = (delete_all m (take (length o - MAX_CACHED_BUFFERS) o),
               drop (length o - MAX_CACHED_BUFFERS) o).
Proof.
  unfold delete_all. revert m. induction o as [|k rest IH]; intros m; [reflexivity|].
  simpl length. simpl evict. destruct (Nat.ltb MAX_CACHED_BUFFERS (S (length rest))) eqn:E.
  - apply Nat.ltb_lt in E. unfold MAX_CACHED_BUFFERS in *.
    rewrite IH. replace (S (length rest) - 3)%nat with (S (length rest - 3)) by lia.
    reflexivity.
  - apply Nat.ltb_ge in E. unfold MAX_CACHED_BUFFERS in *.
    replace (S (length rest) - 3)%nat with 0%nat by lia. reflexivity.
Qed.

Lemma fetch_complete_spec (c : AmbientCache) (key : string) (buf : AudioBuffer) :
  let l := cacheOrder c ++ [key] in
  let n := (length (cacheOrder c) + 1 - MAX_CACHED_BUFFERS)%nat in
  cacheOrder (fetch_complete c key buf) = drop n l /\
  bufferCache (fetch_complete c key buf) = delete_all (<[key := buf]> (bufferCache c)) (take n l).
Proof.
  unfold fetch_complete. rewrite evict_spec. rewrite length_app. simpl. auto.
Qed.

Lemma cache_inv_complete (c : AmbientCache) (key : string) (buf : AudioBuffer) :
  cache_inv c -> cache_inv (fetch_complete c key buf).
Proof.
  intros [Hlen Hdom]. destruct (fetch_complete_spec c key buf) as [Ho Hm].
  split.
  - rewrite Ho, length_drop, length_app. simpl. unfold MAX_CACHED_BUFFERS in *. lia.
  - intros k b Hk. rewrite Hm in Hk. rewrite Ho.
    set (n := (length (cacheOrder c) + 1 - MAX_CACHED_BUFFERS)%nat) in *.
    destruct (in_dec String.string_dec k (take n (cacheOrder c ++ [key]))) as [Ht|Ht].
    + rewrite delete_all_in in Hk by exact Ht. discriminate.
    + rewrite delete_all_notin in Hk by exact Ht.
      assert (Hin : In k (cacheOrder c ++ [key])).
      { apply in_or_app. destruct (decide (key = k)) as [->|Hne]; [right; left; reflexivity|].
        left. rewrite lookup_insert_ne in Hk by exact Hne. exact (Hdom k b Hk). }
      rewrite <- (take_drop n (cacheOrder c ++ [key])) in Hin.
      apply in_app_or in Hin as [Hin|Hin]; [contradiction|exact Hin].
Qed.

Lemma map_size_le_order (m : gmap string AudioBuffer) (o : list string) :
  (forall k b, m !! k = Some b -> In k o) -> (size m <= length o)%nat.
Proof.
  intros Hdom. rewrite <- length_map_to_list.
  rewrite <- (length_fmap fst (map_to_list m)).
  apply NoDup_incl_length; [apply NoDup_ListNoDup, NoDup_fst_map_to_list|].
  intros k Hk. apply list_elem_of_In in Hk. apply list_elem_of_fmap in Hk as [[k' b] [-> Hkb]].
  apply elem_of_map_to_list in Hkb. exact (Hdom k' b Hkb).
Qed.

Lemma complete_all_inv (c : AmbientCache) (evs : list (string * AudioBuffer)) :
  cache_inv c -> cache_inv (complete_all c evs).
Proof.
  unfold complete_all. revert c. induction evs as [|[k b] rest IH]; intros c Hc; simpl.
  - exact Hc.
  - apply IH. apply cache_inv_complete. exact Hc.
Qed.

Lemma in_drop_in {A : Type} (n : nat) (l : list A) (x : A) : In x (drop n l) -> In x l.
Proof.
  intros H. rewrite <- (take_drop n l). apply in_or_app. right. exact H.
Qed.

Lemma drop_order_snoc (pre : list string) (f : string) :
  let o := drop (length pre - MAX_CACHED_BUFFERS) pre in
  drop (length o + 1 - MAX_CACHED_BUFFERS) (o ++ [f]) =
  drop (length (pre ++ [f]) - MAX_CACHED_BUFFERS) (pre ++ [f]).
Proof.
  simpl. unfold MAX_CACHED_BUFFERS. rewrite <- drop_app_le by lia.
  rewrite drop_drop. f_equal. rewrite length_drop, length_app. simpl. lia.
Qed.

(** Requests that each complete before the next one, for sounds whose
    files are all distinct and were never cached before. *)
Lemma request_all_fresh (decode : string -> AudioBuffer) (sounds : list string) :
  forall (c : AmbientCache) (pre fs : list string),
  cacheOrder c = drop (length pre - MAX_CACHED_BUFFERS) pre ->
  (forall k b, bufferCache c !! k = Some b <-> In k (cacheOrder c) /\ b = decode k) ->
  NoDup (pre ++ fs) ->
  map sound_file sounds = map Some fs ->
  cacheOrder (request_all decode c sounds) =
    drop (length (pre ++ fs) - MAX_CACHED_BUFFERS) (pre ++ fs) /\
  (forall k b, bufferCache (request_all decode c sounds) !! k = Some b <->
     In k (cacheOrder (request_all decode c sounds)) /\ b = decode k).
Proof.
  induction sounds as [|id ids IH]; intros c pre fs Ho Hm Hnd Hf.
  - destruct fs; [|discriminate]. rewrite app_nil_r. auto.
  - destruct fs as [|f fs']; [discriminate|]. simpl in Hf. injection Hf as Hid Hf.
    unfold sound_file in Hid. destruct (find_meta id) as [meta|] eqn:Em; [|discriminate].
    simpl in Hid. injection Hid as Hid.
    pose proof Hnd as Hnd0. apply NoDup_app in Hnd as (Hnd1 & Hdis & Hnd2).
    assert (Hfpre : ~ In f pre).
    { intros H. apply (Hdis f); [apply list_elem_of_In; exact H|left]. }
    assert (Hfo : ~ In f (cacheOrder c)).
    { rewrite Ho. intros H. exact (Hfpre (in_drop_in _ _ _ H)). }
    assert (Hreq : request decode c id = fetch_complete c f (decode f)).
    { unfold request, fetch_begin. rewrite Em, Hid.
      destruct (bufferCache c !! f) as [b|] eqn:Eb; [|reflexivity].
      exfalso. apply Hfo. exact (proj1 (proj1 (Hm f b) Eb)). }
    unfold request_all. simpl. rewrite Hreq. fold (request_all decode (fetch_complete c f (decode f)) ids).
    replace (pre ++ f :: fs') with ((pre ++ [f]) ++ fs') by (rewrite <- app_assoc; reflexivity).
    destruct (fetch_complete_spec c f (decode f)) as [Ho' Hm'].
    set (l := cacheOrder c ++ [f]) in *.
    set (n := (length (cacheOrder c) + 1 - MAX_CACHED_BUFFERS)%nat) in *.
    assert (Hndl : NoDup l).
    { unfold l. apply NoDup_app. split; [|split].
      - rewrite Ho. rewrite <- (take_drop (length pre - MAX_CACHED_BUFFERS) pre) in Hnd1.
        apply NoDup_app in Hnd1 as (_ & _ & Hd). exact Hd.
      - intros x Hx Hx'. apply list_elem_of_In in Hx. apply list_elem_of_singleton in Hx'.
        subst x. exact (Hfo Hx).
      - apply NoDup_singleton. }
    apply IH.
    + rewrite Ho'. unfold l, n. rewrite Ho. apply drop_order_snoc.
    + intros k b. rewrite Hm', Ho'.
      rewrite <- (take_drop n l) in Hndl. apply NoDup_app in Hndl as (_ & Hdisl & _).
      split.
      * intros Hk. destruct (in_dec String.string_dec k (take n l)) as [Ht|Ht].
        { rewrite delete_all_in in Hk by exact Ht. discriminate. }
        rewrite delete_all_notin in Hk by exact Ht.
        assert (Hin : In k l /\ b = decode k).
        { destruct (decide (f = k)) as [<-|Hne].
          - rewrite lookup_insert_eq in Hk. injection Hk as <-.
            split; [apply in_or_app; right; left; reflexivity|reflexivity].
          - rewrite lookup_insert_ne in Hk by exact Hne.
            destruct (proj1 (Hm k b) Hk) as [Hk1 Hk2].
            split; [apply in_or_app; left; exact Hk1|exact Hk2]. }
        destruct Hin as [Hin ->]. split; [|reflexivity].
        rewrite <- (take_drop n l) in Hin. apply in_app_or in Hin as [Hin|Hin];
          [contradiction|exact Hin].
      * intros [Hk ->].
        assert (Ht : ~ In k (take n l)).
        { intros Ht. apply (Hdisl k); apply list_elem_of_In; assumption. }
        rewrite delete_all_notin by exact Ht.
        destruct (decide (f = k)) as [<-|Hne]; [apply lookup_insert_eq|].
        rewrite lookup_insert_ne by exact Hne.
        apply (proj2 (Hm k (decode k))). split; [|reflexivity].
        apply in_drop_in in Hk. unfold l in Hk. apply in_app_or in Hk as [Hk|[Hk|[]]];
          [exact Hk|congruence].
    + rewrite <- app_assoc. exact Hnd0.
    + exact Hf.
Qed.

Lemma map_size_eq_order (m : gmap string AudioBuffer) (o : list string) :
  NoDup o -> (forall k, (exists b, m !! k = Some b) <-> In k o) -> size m = length o.
Proof.
  intros Hnd Hdom. rewrite <- length_map_to_list.
  rewrite <- (length_fmap fst (map_to_list m)).
  apply Permutation_length. apply NoDup_Permutation.
  - apply NoDup_fst_map_to_list.
  - exact Hnd.
  - intros k. rewrite (list_elem_of_In o k), <- Hdom. split.
    + intros Hk. apply list_elem_of_fmap in Hk as [[k' b] [-> Hkb]].
      apply elem_of_map_to_list in Hkb. exists b. exact Hkb.
    + intros [b Hb]. apply list_elem_of_fmap. exists (k, b). split; [reflexivity|].
      apply elem_of_map_to_list. exact Hb.
Qed.

(** C8 (corrected).  After any completions of fetches, in any order, the
    cache holds at most [MAX_CACHED_BUFFERS = 3] buffers.  A completed
    fetch appends its key to the insertion order, and eviction removes
    keys from the front of that order.  When each request completes before
    the next one and the requested sounds have distinct files, the cache
    built from empty holds exactly the buffers of the last three files
    requested. *)
Theorem ambient_cache_bounded :
  (forall evs : list (string * AudioBuffer),
     (size (bufferCache (complete_all empty_cache evs)) <= MAX_CACHED_BUFFERS)%nat) /\
  (forall (c : AmbientCache) (key : string) (buf : AudioBuffer),
     cacheOrder (fetch_complete c key buf) =
       drop (length (cacheOrder c) + 1 - MAX_CACHED_BUFFERS) (cacheOrder c ++ [key]) /\
     bufferCache (fetch_complete c key buf) =
       delete_all (<[key := buf]> (bufferCache c))
         (take (length (cacheOrder c) + 1 - MAX_CACHED_BUFFERS) (cacheOrder c ++ [key]))) /\
  (forall (decode : string -> AudioBuffer) (sounds fs : list string),
     NoDup fs -> map sound_file sounds = map Some fs ->
     cacheOrder (request_all decode empty_cache sounds) =
       drop (length fs - MAX_CACHED_BUFFERS) fs /\
     (forall k b, bufferCache (request_all decode empty_cache sounds) !! k = Some b <->
        In k (drop (length fs - MAX_CACHED_BUFFERS) fs) /\ b = decode k) /\
     size (bufferCache (request_all decode empty_cache sounds)) =
       length (drop (length fs - MAX_CACHED_BUFFERS) fs)).
Proof.
  split; [|split].
  - intros evs.
    assert (Hinv : cache_inv (complete_all empty_cache evs)).
    { apply complete_all_inv. split; [simpl; unfold MAX_CACHED_BUFFERS; lia|].
      intros k b Hk. simpl in Hk. rewrite lookup_empty in Hk. discriminate. }
    destruct Hinv as [Hlen Hdom].
    apply Nat.le_trans with (length (cacheOrder (complete_all empty_cache evs))); [|exact Hlen].
    apply map_size_le_order. exact Hdom.
  - intros c key buf. exact (fetch_complete_spec c key buf).
  - intros decode sounds fs Hnd Hf.
    destruct (request_all_fresh decode sounds empty_cache [] fs eq_refl) as [Ho Hm].
    + intros k b. simpl. rewrite lookup_empty. split; [discriminate|intros [[] _]].
    + exact Hnd.
    + exact Hf.
    + simpl in Ho, Hm. rewrite Ho in Hm. split; [exact Ho|]. split; [exact Hm|].
      apply map_size_eq_order.
      * rewrite <- (take_drop (length fs - MAX_CACHED_BUFFERS) fs) in Hnd.
        apply NoDup_app in Hnd as (_ & _ & Hd). exact Hd.
      * intros k. split.
        -- intros [b Hb]. exact (proj1 (proj1 (Hm k b) Hb)).
        -- intros Hk. exists (decode k). apply Hm. split; [exact Hk|reflexivity].
Qed.

Lemma ambient_cache_bounded_witness :
  NoDup ["rain.ogg"; "ocean.ogg"; "forest.ogg"; "fire.ogg"; "wind.ogg"] /\
  cacheOrder (request_all example_decode empty_cache ["rain"; "ocean"; "forest"; "fire"; "wind"])
    = ["forest.ogg"; "fire.ogg"; "wind.ogg"] /\
  size (bufferCache
    (request_all example_decode empty_cache ["rain"; "ocean"; "forest"; "fire"; "wind"])) = 3%nat.
Proof.
  assert (Hnd : NoDup ["rain.ogg"; "ocean.ogg"; "forest.ogg"; "fire.ogg"; "wind.ogg"])
    by (apply NoDup_ListNoDup; repeat constructor; simpl; intuition discriminate).
  destruct ambient_cache_bounded as (_ & _ & H).
  destruct (H example_decode ["rain"; "ocean"; "forest"; "fire"; "wind"]
              ["rain.ogg"; "ocean.ogg"; "forest.ogg"; "fire.ogg"; "wind.ogg"] Hnd eq_refl)
    as (Ho & _ & Hs).
  split; [exact Hnd|]. split; [exact Ho|]. rewrite Hs. reflexivity.
Defined.

(** Counterexample to C8's last part.  (1) One request at a time: "wind"
    is requested once, then the five distinct sounds "rain", "ocean",
    "wind", "fire", "forest"; the second "wind" is a cache hit, which
    does not move it in the insertion order, so it is evicted and the
    cache keeps ocean, fire and forest.  (2) Overlapping requests: the five
    fetches of "rain", "ocean", "forest", "fire", "wind" all start on an
    empty cache and complete with "wind" first; the cache keeps ocean,
    forest and fire. *)
Lemma ambient_cache_not_recent :
  (cacheOrder (request_all example_decode empty_cache
                 ["wind"; "rain"; "ocean"; "wind"; "fire"; "forest"])
     = ["ocean.ogg"; "fire.ogg"; "forest.ogg"] /\
   bufferCache (request_all example_decode empty_cache
                  ["wind"; "rain"; "ocean"; "wind"; "fire"; "forest"]) !! "wind.ogg" = None) /\
  (map (fetch_begin empty_cache) ["rain"; "ocean"; "forest"; "fire"; "wind"]
     = [FetchMiss "rain.ogg"; FetchMiss "ocean.ogg"; FetchMiss "forest.ogg";
        FetchMiss "fire.ogg"; FetchMiss "wind.ogg"] /\
   cacheOrder (complete_all empty_cache
     [("wind.ogg", 5%nat); ("rain.ogg", 1%nat); ("ocean.ogg", 2%nat);
      ("forest.ogg", 3%nat); ("fire.ogg", 4%nat)]) = ["ocean.ogg"; "forest.ogg"; "fire.ogg"] /\
   bufferCache (complete_all empty_cache
     [("wind.ogg", 5%nat); ("rain.ogg", 1%nat); ("ocean.ogg", 2%nat);
      ("forest.ogg", 3%nat); ("fire.ogg", 4%nat)]) !! "wind.ogg" = None).
Proof. vm_compute. repeat split. Qed.

(* ------------------------------------------------------------------ *)
(** ** Pulse scheduler *)

Lemma pulse_events_split (p t : Q) :
  pulse_events p t = cycle_open p t ++ [SetValueAtTime 0 (t + p)].
Proof. reflexivity. Qed.

Lemma cyc_start_S (p s0 : Q) (k : nat) : cyc_start p s0 (S k) = cyc_start p s0 k + p.
Proof. reflexivity. Qed.

Lemma cyc_start_mono (p s0 : Q) (j k : nat) :
  0 <= p -> (j <= k)%nat -> cyc_start p s0 j <= cyc_start p s0 k.
Proof.
  intros Hp Hjk. induction Hjk as [|k Hjk IH]; [apply Qle_refl|].
  rewrite cyc_start_S. apply Qle_trans with (cyc_start p s0 k); [exact IH|lra].
Qed.

Lemma cyc_start_eq (p s0 : Q) (k : nat) :
  cyc_start p s0 k == s0 + inject_Z (Z.of_nat k) * p.
Proof.
  induction k as [|k IH].
  - simpl. ring.
  - rewrite cyc_start_S, IH, Nat2Z.inj_succ, <- Z.add_1_r, inject_Z_plus. ring.
Qed.

(** The loop schedules whole cycles continuing the progression. *)
Lemma pulse_loop_spec (p s0 endTime : Q) (fuel K : nat) :
  exists n, pulse_loop fuel p (cyc_start p s0 K) endTime =
    (concat (map (fun k => pulse_events p (cyc_start p s0 k)) (seq K n)),
     cyc_start p s0 (K + n)).
Proof.
  revert K. induction fuel as [|fuel IH]; intros K; simpl.
  - exists 0%nat. rewrite Nat.add_0_r. reflexivity.
  - destruct (Qltb (cyc_start p s0 K) endTime).
    + rewrite <- cyc_start_S. destruct (IH (S K)) as [n Hn]. rewrite Hn.
      exists (S n). simpl. rewrite Nat.add_succ_r. reflexivity.
    + exists 0%nat. rewrite Nat.add_0_r. reflexivity.
Qed.

(** With enough fuel the loop stops by its test [t < endTime]. *)
Lemma pulse_loop_exits (p endTime : Q) (fuel : nat) (t : Q) :
  0 < p -> endTime - t < inject_Z (Z.of_nat fuel) * p ->
  endTime <= snd (pulse_loop fuel p t endTime).
Proof.
  intros Hp. revert t. induction fuel as [|fuel IH]; intros t Hf; simpl.
  - assert (H0 : inject_Z (Z.of_nat 0) * p == 0) by ring. lra.
  - destruct (Qltb t endTime) eqn:E.
    + destruct (pulse_loop fuel p (t + p) endTime) as [evs t'] eqn:El. simpl.
      change t' with (snd (evs, t')). rewrite <- El. apply IH.
      rewrite Nat2Z.inj_succ, <- Z.add_1_r, inject_Z_plus in Hf.
      assert (E2 : (inject_Z (Z.of_nat fuel) + inject_Z 1) * p ==
                   inject_Z (Z.of_nat fuel) * p + p) by ring.
      rewrite E2 in Hf. set (m := inject_Z (Z.of_nat fuel) * p) in *. lra.
    + apply Qltb_false in E. exact E.
Qed.

Lemma loop_fuel_enough (p startFrom endTime : Q) :
  0 < p -> endTime - startFrom < inject_Z (Z.of_nat (loop_fuel p startFrom endTime)) * p.
Proof.
  intros Hp. unfold loop_fuel.
  set (x := (endTime - startFrom) / p).
  assert (Hx : endTime - startFrom == x * p) by (unfold x; field; lra).
  pose proof (Qle_ceiling x) as Hc.
  assert (Hz : (Qceiling x + 1 <= Z.of_nat (S (Z.to_nat (Qceiling x))))%Z) by lia.
  rewrite Zle_Qle, inject_Z_plus in Hz.
  rewrite Hx. apply Qlt_le_trans with ((inject_Z (Qceiling x) + 1) * p).
  - apply Qmult_lt_r; [exact Hp|lra].
  - apply Qmult_le_r; [exact Hp|exact Hz].
Qed.

Lemma Qltb_irrefl (x : Q) : Qltb x x = false.
Proof. apply Qltb_false. apply Qle_refl. Qed.

Lemma filter_all {A : Type} (f : A -> bool) (l : list A) :
  (forall x, In x l -> f x = true) -> List.filter f l = l.
Proof.
  induction l as [|x l IH]; intros H; simpl; [reflexivity|].
  rewrite (H x (or_introl eq_refl)). f_equal. apply IH. intros y Hy. apply H. right. exact Hy.
Qed.

Lemma cycle_times_le (p t : Q) (closed : bool) (e : ParamEvent) :
  0 < p -> rampTime < p ->
  In e (if closed then pulse_events p t else cycle_open p t) -> event_time e <= t + p.
Proof.
  intros Hp Hr Hin.
  assert (H2 : p / 2 == (1#2) * p) by field.
  destruct closed; simpl in Hin; unfold rampTime in *;
    repeat (destruct Hin as [<-|Hin]; [simpl; rewrite ?H2; lra|]); destruct Hin.
Qed.

Lemma timeline_times_le (p s0 : Q) (K : nat) (closed : nat -> bool) (e : ParamEvent) :
  0 < p -> rampTime < p ->
  In e (timeline p s0 K closed) -> event_time e <= cyc_start p s0 K.
Proof.
  intros Hp Hr Hin. unfold timeline in Hin.
  apply in_concat in Hin as [l [Hl Hin]]. apply in_map_iff in Hl as [k [<- Hk]].
  apply in_seq in Hk.
  apply Qle_trans with (cyc_start p s0 k + p); [exact (cycle_times_le _ _ _ _ Hp Hr Hin)|].
  rewrite <- cyc_start_S. apply cyc_start_mono; [lra|lia].
Qed.

Lemma timeline_S (p s0 : Q) (K : nat) (closed : nat -> bool) :
  timeline p s0 (S K) closed =
  timeline p s0 K closed ++
    (if closed K then pulse_events p (cyc_start p s0 K) else cycle_open p (cyc_start p s0 K)).
Proof.
  unfold timeline. rewrite seq_S, map_app, concat_app. simpl. rewrite app_nil_r. reflexivity.
Qed.

Lemma timeline_ext (p s0 : Q) (K : nat) (c1 c2 : nat -> bool) :
  (forall k, (k < K)%nat -> c1 k = c2 k) -> timeline p s0 K c1 = timeline p s0 K c2.
Proof.
  intros H. unfold timeline. f_equal. apply map_ext_in. intros k Hk.
  apply in_seq in Hk. rewrite H by lia. reflexivity.
Qed.

Lemma cycle_open_times_lt (p t : Q) (e : ParamEvent) :
  0 < p -> rampTime < p -> In e (cycle_open p t) -> event_time e < t + p.
Proof.
  intros Hp Hr Hin.
  assert (H2 : p / 2 == (1#2) * p) by field.
  simpl in Hin; unfold rampTime in *;
    repeat (destruct Hin as [<-|Hin]; [simpl; rewrite ?H2; lra|]); destruct Hin.
Qed.

(** [cancelScheduledValues] at the end of the schedule removes only the
    closing event of the last cycle. *)
Lemma cancel_timeline (p s0 : Q) (K : nat) (closed : nat -> bool) :
  0 < p -> rampTime < p ->
  cancelScheduledValues (cyc_start p s0 K) (timeline p s0 K closed) =
  timeline p s0 K (fun k => if Nat.eqb (S k) K then false else closed k).
Proof.
  intros Hp Hr. destruct K as [|K]; [reflexivity|].
  rewrite !timeline_S. unfold cancelScheduledValues. rewrite List.filter_app.
  rewrite Nat.eqb_refl. f_equal.
  - rewrite filter_all.
    + apply timeline_ext. intros k Hk. destruct (Nat.eqb_spec (S k) (S K)); [lia|reflexivity].
    + intros e He. apply Qltb_iff. rewrite cyc_start_S.
      pose proof (timeline_times_le p s0 K closed e Hp Hr He). lra.
  - rewrite cyc_start_S.
    assert (Ho : List.filter (fun e => Qltb (event_time e) (cyc_start p s0 K + p))
                   (cycle_open p (cyc_start p s0 K)) = cycle_open p (cyc_start p s0 K)).
    { apply filter_all. intros e He. apply Qltb_iff. exact (cycle_open_times_lt _ _ _ Hp Hr He). }
    destruct (closed K).
    + rewrite pulse_events_split, List.filter_app, Ho.
      transitivity (cycle_open p (cyc_start p s0 K) ++ []); [|apply app_nil_r].
      f_equal. simpl. rewrite Qltb_irrefl. reflexivity.
    + exact Ho.
Qed.

Lemma timeline_extend (p s0 : Q) (K n : nat) (closed : nat -> bool) :
  timeline p s0 K closed ++ concat (map (fun k => pulse_events p (cyc_start p s0 k)) (seq K n)) =
  timeline p s0 (K + n) (fun k => if Nat.ltb k K then closed k else true).
Proof.
  unfold timeline. rewrite seq_app, map_app, concat_app. simpl. f_equal.
  - f_equal. apply map_ext_in. intros k Hk. apply in_seq in Hk.
    destruct (Nat.ltb_spec k K); [reflexivity|lia].
  - f_equal. apply map_ext_in. intros k Hk. apply in_seq in Hk.
    destruct (Nat.ltb_spec k K); [lia|reflexivity].
Qed.

Lemma Qmax_l_eq (x y : Q) : y <= x -> Qmax x y = x.
Proof.
  intros H. unfold Qmax, GenericMinMax.gmax.
  destruct (x ?= y) eqn:E; try reflexivity.
  exfalso. apply Qlt_alt in E. exact (Qlt_not_le _ _ E H).
Qed.

(** The scheduler state of a constant-frequency run: the schedule so far
    is cycles [0 .. K-1] from [s0], and [lastScheduledTime] is the start
    of cycle [K]. *)
Lemma schedule_step (f s0 now : Q) (e : IsochronicEngine) (K : nat) (closed : nat -> bool) :
  0 < f -> f < 500 ->
  _beatFreq e = f -> lastScheduledTime e = cyc_start (1 / f) s0 K ->
  gain_events e = timeline (1 / f) s0 K closed ->
  now <= lastScheduledTime e ->
  exists n closed',
    _beatFreq (schedulePulses e now) = f /\
    lastScheduledTime (schedulePulses e now) = cyc_start (1 / f) s0 (K + n) /\
    gain_events (schedulePulses e now) = timeline (1 / f) s0 (K + n) closed' /\
    now + scheduleAhead <= lastScheduledTime (schedulePulses e now).
Proof.
  intros Hf0 Hf1 Hb Hl He Hnow.
  assert (Hp : 0 < 1 / f) by (apply Qlt_shift_div_l; [exact Hf0|lra]).
  assert (Hr : rampTime < 1 / f) by (apply Qlt_shift_div_l; [exact Hf0|unfold rampTime; lra]).
  unfold schedulePulses.
  assert (E1 : Qltb (lastScheduledTime e) (now - (1#10)) = false) by (apply Qltb_false; lra).
  rewrite E1, (Qmax_l_eq _ _ Hnow), Hb, Hl.
  destruct (pulse_loop_spec (1 / f) s0 (now + scheduleAhead)
              (loop_fuel (1 / f) (cyc_start (1 / f) s0 K) (now + scheduleAhead)) K) as [n Hn].
  pose proof (pulse_loop_exits (1 / f) (now + scheduleAhead)
                (loop_fuel (1 / f) (cyc_start (1 / f) s0 K) (now + scheduleAhead))
                (cyc_start (1 / f) s0 K) Hp (loop_fuel_enough _ _ _ Hp)) as Hex.
  rewrite Hn in Hex |- *. simpl in Hex |- *.
  exists n, (fun k => if Nat.ltb k K then
                        (if Nat.eqb (S k) K then false else closed k) else true).
  split; [reflexivity|]. split; [reflexivity|]. split; [|exact Hex].
  rewrite He, (cancel_timeline _ _ _ _ Hp Hr). apply timeline_extend.
Qed.

Lemma iso_run_tiles (f s0 : Q) (nows : list Q) :
  forall (e : IsochronicEngine) (K : nat) (closed : nat -> bool),
  0 < f -> f < 500 ->
  _beatFreq e = f -> lastScheduledTime e = cyc_start (1 / f) s0 K ->
  gain_events e = timeline (1 / f) s0 K closed ->
  (forall i now, nows !! i = Some now -> now <= lastScheduledTime (iso_run e (take i nows))) ->
  exists K' closed',
    _beatFreq (iso_run e nows) = f /\
    lastScheduledTime (iso_run e nows) = cyc_start (1 / f) s0 K' /\
    gain_events (iso_run e nows) = timeline (1 / f) s0 K' closed'.
Proof.
  induction nows as [|now rest IH]; intros e K closed Hf0 Hf1 Hb Hl He Ht.
  - exists K, closed. auto.
  - assert (Hnow : now <= lastScheduledTime e) by exact (Ht 0%nat now eq_refl).
    destruct (schedule_step f s0 now e K closed Hf0 Hf1 Hb Hl He Hnow)
      as (n & closed' & Hb' & Hl' & He' & _).
    apply (IH (schedulePulses e now) (K + n)%nat closed' Hf0 Hf1 Hb' Hl' He').
    intros i now' Hi. exact (Ht (S i) now' Hi).
Qed.

Lemma Qleb_compat (x x' y y' : Q) : x == x' -> y == y' -> Qleb x y = Qleb x' y'.
Proof.
  intros Hx Hy. destruct (Qleb x y) eqn:E1, (Qleb x' y') eqn:E2; try reflexivity.
  - apply Qleb_iff in E1. apply Qleb_false in E2. rewrite Hx, Hy in E1. lra.
  - apply Qleb_false in E1. apply Qleb_iff in E2. rewrite <- Hx, <- Hy in E2. lra.
Qed.

(** Each cycle, closed or not, holds one attack ramp. *)
Lemma complete_cycles_cycle (p a w t : Q) (closed : bool) :
  complete_cycles p a w (if closed then pulse_events p t else cycle_open p t) =
  if Qleb a t && Qleb (t + p) (a + w) then 1%nat else 0%nat.
Proof.
  assert (E : Qleb a (t + rampTime - rampTime) && Qleb (t + rampTime - rampTime + p) (a + w)
              = Qleb a t && Qleb (t + p) (a + w)).
  { f_equal; apply Qleb_compat; ring. }
  unfold complete_cycles.
  destruct closed; unfold pulse_events, cycle_open; cbn [List.filter];
    replace (Qeq_bool 1 1) with true by reflexivity;
    replace (Qeq_bool 0 1) with false by reflexivity; cbn [andb];
    rewrite E; destruct (Qleb a t && Qleb (t + p) (a + w)); reflexivity.
Qed.

Lemma complete_cycles_app (p a w : Q) (l1 l2 : list ParamEvent) :
  complete_cycles p a w (l1 ++ l2) = (complete_cycles p a w l1 + complete_cycles p a w l2)%nat.
Proof. unfold complete_cycles. rewrite List.filter_app, length_app. reflexivity. Qed.

Lemma complete_cycles_timeline (p s0 a w : Q) (K : nat) (closed : nat -> bool) :
  complete_cycles p a w (timeline p s0 K closed) =
  length (List.filter (fun k => Qleb a (cyc_start p s0 k) &&
                                Qleb (cyc_start p s0 k + p) (a + w)) (seq 0 K)).
Proof.
  induction K as [|K IH]; [reflexivity|].
  rewrite timeline_S, complete_cycles_app, IH, complete_cycles_cycle.
  rewrite seq_S, List.filter_app, length_app. simpl.
  destruct (Qleb a (cyc_start p s0 K) && Qleb (cyc_start p s0 K + p) (a + w)); reflexivity.
Qed.

Lemma count_range (lo hi K : nat) :
  length (List.filter (fun k => Nat.leb lo k && Nat.ltb k hi) (seq 0 K)) = (Nat.min hi K - lo)%nat.
Proof.
  induction K as [|K IH]; [simpl; lia|].
  rewrite seq_S, List.filter_app, length_app, IH. simpl.
  destruct (Nat.leb_spec lo K), (Nat.ltb_spec K hi); simpl; lia.
Qed.

Lemma Qle_nat_ceiling (x : Q) (k : nat) :
  0 <= x -> (x <= inject_Z (Z.of_nat k) <-> (Z.to_nat (Qceiling x) <= k)%nat).
Proof.
  intros Hx. split.
  - intros H. apply Qceiling_resp_le in H. rewrite Qceiling_Z in H. lia.
  - intros H. apply Qle_trans with (inject_Z (Qceiling x)); [apply Qle_ceiling|].
    rewrite <- Zle_Qle. lia.
Qed.

Lemma Qle_nat_floor (y : Q) (k : nat) :
  inject_Z (Z.of_nat k) <= y <-> (k < Z.to_nat (Qfloor y + 1))%nat.
Proof.
  split.
  - intros H. apply Qfloor_resp_le in H. rewrite Qfloor_Z in H. lia.
  - intros H. apply Qle_trans with (inject_Z (Qfloor y)); [|apply Qfloor_le].
    rewrite <- Zle_Qle. lia.
Qed.

Lemma inject_Z_sub (x y : Z) : inject_Z (x - y) == inject_Z x - inject_Z y.
Proof. unfold Z.sub. rewrite inject_Z_plus, inject_Z_opp. reflexivity. Qed.

Lemma scale_le (u v f : Q) : 0 < f -> (u <= v <-> u * f <= v * f).
Proof. intros Hf. symmetry. apply Qmult_le_r. exact Hf. Qed.

(** The cycles of a progression of period [1/f] from [s0] that lie in a
    window [[a, a + w]] covered by cycles [0 .. K-1]: between [w*f - 2]
    (exclusive) and [w*f]. *)
Lemma window_count (f s0 a w : Q) (K : nat) :
  0 < f -> s0 <= a -> 0 < w -> a + w <= cyc_start (1 / f) s0 K ->
  let N := length (List.filter (fun k => Qleb a (cyc_start (1 / f) s0 k) &&
                       Qleb (cyc_start (1 / f) s0 k + 1 / f) (a + w)) (seq 0 K)) in
  w * f - 2 < inject_Z (Z.of_nat N) /\ inject_Z (Z.of_nat N) <= w * f.
Proof.
  intros Hf Ha Hw Hcov N.
  assert (Hfz : ~ f == 0) by (intros E; rewrite E in Hf; discriminate).
  set (x := (a - s0) * f).
  set (wf := w * f).
  assert (Hx0 : 0 <= x) by (unfold x; apply Qmult_le_0_compat; lra).
  assert (Hwf : 0 < wf) by (unfold wf; apply Qmult_lt_0_compat; assumption).
  set (lo := Z.to_nat (Qceiling x)).
  set (hi := Z.to_nat (Qfloor (x + wf - 1) + 1)).
  assert (Hkey : forall k,
    Qleb a (cyc_start (1 / f) s0 k) && Qleb (cyc_start (1 / f) s0 k + 1 / f) (a + w) =
    Nat.leb lo k && Nat.ltb k hi).
  { intros k. set (c := inject_Z (Z.of_nat k)).
    assert (Ez : c * (1 / f) * f == c) by (field; exact Hfz).
    assert (Ez1 : (c * (1 / f) + 1 / f) * f == c + 1) by (field; exact Hfz).
    assert (Ex : (a - s0) * f == x) by reflexivity.
    assert (Ew : (a + w - s0) * f == x + wf) by (unfold x, wf; ring).
    f_equal.
    - apply Bool.eq_iff_eq_true. rewrite Qleb_iff, Nat.leb_le, cyc_start_eq. unfold lo.
      rewrite <- (Qle_nat_ceiling x k Hx0). fold c. split.
      + intros H. assert (H' : a - s0 <= c * (1 / f)) by lra.
        apply (scale_le _ _ f Hf) in H'. rewrite Ex, Ez in H'. exact H'.
      + intros H. rewrite <- Ez, <- Ex in H. apply (scale_le _ _ f Hf) in H. lra.
    - apply Bool.eq_iff_eq_true. rewrite Qleb_iff, Nat.ltb_lt, cyc_start_eq. unfold hi.
      rewrite <- Qle_nat_floor. fold c. split.
      + intros H. assert (H' : c * (1 / f) + 1 / f <= a + w - s0) by lra.
        apply (scale_le _ _ f Hf) in H'. rewrite Ez1, Ew in H'. lra.
      + intros H. assert (H' : c + 1 <= x + wf) by lra.
        rewrite <- Ez1, <- Ew in H'. apply (scale_le _ _ f Hf) in H'. lra. }
  assert (HN : N = (Nat.min hi K - lo)%nat).
  { unfold N. rewrite (List.filter_ext _ _ Hkey). apply count_range. }
  assert (HK : (hi <= K)%nat).
  { assert (Hc : x + wf - 1 <= inject_Z (Z.of_nat K) - 1).
    { rewrite cyc_start_eq in Hcov.
      assert (H' : a + w - s0 <= inject_Z (Z.of_nat K) * (1 / f)) by lra.
      apply (scale_le _ _ f Hf) in H'.
      assert (EK : inject_Z (Z.of_nat K) * (1 / f) * f == inject_Z (Z.of_nat K))
        by (field; exact Hfz).
      assert (Ew : (a + w - s0) * f == x + wf) by (unfold x, wf; ring).
      rewrite EK, Ew in H'. lra. }
    pose proof (Qfloor_le (x + wf - 1)) as Hfl.
    assert (Hz : inject_Z (Qfloor (x + wf - 1)) <= inject_Z (Z.of_nat K - 1)).
    { rewrite inject_Z_sub. change (inject_Z 1) with 1. lra. }
    rewrite <- Zle_Qle in Hz. unfold hi. lia. }
  rewrite Nat.min_l in HN by exact HK.
  set (F := Qfloor (x + wf - 1)) in *.
  set (C := Qceiling x) in *.
  assert (HC0 : (0 <= C)%Z).
  { unfold C. pose proof (Qceiling_resp_le 0 x Hx0) as H0. exact H0. }
  pose proof (Qfloor_le (x + wf - 1)) as H1. fold F in H1.
  pose proof (Qlt_floor (x + wf - 1)) as H2. fold F in H2. rewrite inject_Z_plus in H2.
  pose proof (Qle_ceiling x) as H3. fold C in H3.
  pose proof (Qceiling_lt x) as H4. fold C in H4. rewrite inject_Z_sub in H4.
  change (inject_Z 1) with 1 in H2, H4.
  destruct (Z_le_gt_dec (F + 1) C) as [Hle|Hgt].
  - assert (HN0 : N = 0%nat) by (rewrite HN; unfold hi, lo; lia).
    rewrite HN0. change (inject_Z (Z.of_nat 0)) with 0.
    assert (HFC : inject_Z (F + 1) <= inject_Z C) by (rewrite <- Zle_Qle; exact Hle).
    rewrite inject_Z_plus in HFC. change (inject_Z 1) with 1 in HFC.
    split; lra.
  - assert (HNz : Z.of_nat N = (F + 1 - C)%Z) by (rewrite HN; unfold hi, lo; lia).
    rewrite HNz, inject_Z_sub, inject_Z_plus. change (inject_Z 1) with 1. split; lra.
Qed.

(** C7 (corrected): for a constant beat frequency [0 < f < 500], started at
    [s0] and with every interval call made no later than the current
    [lastScheduledTime], the gain events are the contiguous cycles
    [k = 0 .. K-1] beginning at [s0 + k/f], each the trapezoid of
    [pulse_events] (2 ms attack to 1, hold to half period minus 2 ms, 2 ms
    release to 0, 0 until [s0 + (k+1)/f]); only the closing
    [setValueAtTime(0, .)] of a batch's last cycle may be missing.  A
    10-second window [[a, a + 10]] inside the schedule holds [N] complete
    cycles with [10 f - 2 < N <= 10 f]. *)
Theorem iso_pulses_tile (f s0 : Q) (nows : list Q) :
  0 < f -> f < 500 ->
  (forall i now, nows !! i = Some now ->
     now <= lastScheduledTime (iso_run (iso_start f s0) (take i nows))) ->
  exists K closed,
    lastScheduledTime (iso_run (iso_start f s0) nows) = cyc_start (1 / f) s0 K /\
    gain_events (iso_run (iso_start f s0) nows) = timeline (1 / f) s0 K closed /\
    forall a, s0 <= a -> a + 10 <= lastScheduledTime (iso_run (iso_start f s0) nows) ->
      10 * f - 2 < inject_Z (Z.of_nat (complete_cycles (1 / f) a 10
                                         (gain_events (iso_run (iso_start f s0) nows)))) /\
      inject_Z (Z.of_nat (complete_cycles (1 / f) a 10
                            (gain_events (iso_run (iso_start f s0) nows)))) <= 10 * f.
Proof.
  intros Hf0 Hf1 Ht.
  destruct (schedule_step f s0 s0 (mkIso f s0 []) 0 (fun _ => true) Hf0 Hf1
              eq_refl eq_refl eq_refl (Qle_refl s0)) as (n & c1 & Hb1 & Hl1 & He1 & _).
  destruct (iso_run_tiles f s0 nows (iso_start f s0) (0 + n) c1 Hf0 Hf1 Hb1 Hl1 He1 Ht)
    as (K & c & _ & Hl & He).
  exists K, c. split; [exact Hl|]. split; [exact He|].
  intros a Ha Hcov. rewrite He, complete_cycles_timeline. rewrite Hl in Hcov.
  assert (H10 : 0 < 10) by lra.
  pose proof (window_count f s0 a 10 K Hf0 Ha H10 Hcov) as W. cbv zeta in W.
  exact W.
Qed.

Lemma iso_pulses_tile_witness :
  exists K closed,
    lastScheduledTime (iso_run (iso_start (5#4) 0) [9#10]) = cyc_start (1 / (5#4)) 0 K /\
    gain_events (iso_run (iso_start (5#4) 0) [9#10]) = timeline (1 / (5#4)) 0 K closed /\
    forall a, 0 <= a -> a + 10 <= lastScheduledTime (iso_run (iso_start (5#4) 0) [9#10]) ->
      10 * (5#4) - 2 < inject_Z (Z.of_nat (complete_cycles (1 / (5#4)) a 10
                                         (gain_events (iso_run (iso_start (5#4) 0) [9#10])))) /\
      inject_Z (Z.of_nat (complete_cycles (1 / (5#4)) a 10
                            (gain_events (iso_run (iso_start (5#4) 0) [9#10])))) <= 10 * (5#4).
Proof.
  apply (iso_pulses_tile (5#4) 0 [9#10]); [vm_compute; reflexivity|vm_compute; reflexivity|].
  intros i now H. destruct i as [|i].
  - simpl in H. injection H as <-. apply Qleb_iff. vm_compute. reflexivity.
  - simpl in H. destruct i; simpl in H; discriminate.
Defined.

(** With [f = 5/4] and interval calls every 0.9 s, the window [[0.1, 10.1]]
    lies inside the schedule and holds 11 complete cycles, while
    [10 f = 12.5]; a call made after [lastScheduledTime + 0.1] restarts
    the cycles at [now], off the grid [k/f], after a stretch of silence. *)
Lemma iso_window_not_10f :
  let nows := [9#10; 18#10; 27#10; 36#10; 45#10; 54#10; 63#10; 72#10; 81#10; 9] in
  let cx := iso_run (iso_start (5#4) 0) nows in
  (forall i now, nows !! i = Some now ->
     now <= lastScheduledTime (iso_run (iso_start (5#4) 0) (take i nows))) /\
  (1#10) + 10 <= lastScheduledTime cx /\
  complete_cycles (1 / (5#4)) (1#10) 10 (gain_events cx) = 11%nat /\
  1 < 10 * (5#4) - inject_Z (Z.of_nat 11) /\
  let late := iso_run (iso_start (5#4) 0) [3] in
  lastScheduledTime (iso_start (5#4) 0) < 3 - (1#10) /\
  In (LinearRampToValueAtTime 1 (3 + rampTime)) (gain_events late) /\
  (forall k, ~ cyc_start (1 / (5#4)) 0 k == 3).
Proof.
  cbv zeta. split; [|split; [|split; [|split; [|split; [|split]]]]].
  - intros i now H.
    do 10 (destruct i as [|i]; [simpl in H; injection H as <-; apply Qleb_iff;
                                vm_compute; reflexivity|]).
    simpl in H. destruct i; simpl in H; discriminate.
  - apply Qleb_iff. vm_compute. reflexivity.
  - vm_compute. reflexivity.
  - vm_compute. reflexivity.
  - vm_compute. reflexivity.
  - vm_compute. tauto.
  - intros k Hk. rewrite cyc_start_eq in Hk. unfold Qeq in Hk. simpl in Hk. lia.
Qed.

(* ------------------------------------------------------------------ *)
(** ** Further properties of the session manager *)


(** Property X2: pausing a playing session at a positive [performance.now()] marks it
    paused and stops its tick loop; a second [pause] does nothing, and a
    tick while paused changes nothing and reports nothing. *)
Theorem pause_idempotent (Math_sin : Q -> Q) (Math_PI : Q) (s : Session) (now now' : Q) :
  0 < now -> isPlaying s = true ->
  isPaused (pause s now) = true /\ isPlaying (pause s now) = false /\
  tickLoop (pause s now) = false /\
  pause (pause s now) now' = pause s now /\
  tick Math_sin Math_PI (pause s now) now' = (pause s now, None).
Proof.
  intros Hnow Hpl. unfold isPlaying in Hpl.
  apply andb_true_iff in Hpl as [Hph Hpa]. apply Qeq_bool_iff in Hpa.
  assert (Hq : Qltb 0 (pausedAt s) = false) by (apply Qltb_false; rewrite Hpa; lra).
  apply andb_true_iff in Hph as [H1 H2]. apply negb_true_iff in H1, H2.
  assert (Hp : pause s now = set_tickLoop (set_clock s now (pauseOffset s)) false).
  { unfold pause. rewrite Hq, H1, H2. reflexivity. }
  assert (Hn : Qltb 0 now = true) by (apply Qltb_iff; exact Hnow).
  rewrite Hp. unfold isPaused, isPlaying. simpl. rewrite Hn.
  split; [reflexivity|]. split.
  { destruct (Qeq_bool now 0) eqn:E; [|rewrite andb_false_r; reflexivity].
    apply Qeq_bool_iff in E. rewrite E in Hnow. discriminate. }
  split; [reflexivity|]. split.
  - unfold pause. simpl. rewrite Hn. reflexivity.
  - unfold tick. simpl. destruct (preset s); [rewrite Hn|]; reflexivity.
Qed.

Lemma last_in {A : Type} (l : list A) (x : A) : last l = Some x -> In x l.
Proof.
  induction l as [|a rest IH]; [discriminate|].
  destruct rest as [|b rest]; simpl.
  - intros H. injection H as <-. left. reflexivity.
  - intros H. right. apply IH. exact H.
Qed.

Lemma find_segment_in (env : list FrequencyPoint) (t : Q) (a b : FrequencyPoint) :
  find_segment env t = Some (a, b) -> In a env /\ In b env /\ time a <= t /\ t < time b.
Proof.
  induction env as [|x rest IH]; [discriminate|].
  destruct rest as [|y rest']; [discriminate|].
  simpl. destruct (Qleb (time x) t && Qltb t (time y)) eqn:E.
  - intros H. injection H as <- <-. apply andb_true_iff in E as [E1 E2].
    apply Qleb_iff in E1. apply Qltb_iff in E2.
    split; [left; reflexivity|]. split; [right; left; reflexivity|]. split; assumption.
  - intros H. destruct (IH H) as (Ha & Hb & Ht). split; [right; exact Ha|].
    split; [right; exact Hb|exact Ht].
Qed.

Lemma lerp_between (a b : FrequencyPoint) (t lo hi : Q) :
  time a <= t -> t < time b ->
  lo <= beatFreq a <= hi -> lo <= beatFreq b <= hi ->
  lo <= lerp_segment a b t <= hi.
Proof.
  intros Ha Hb [Ha1 Ha2] [Hb1 Hb2]. unfold lerp_segment.
  assert (Hd : 0 < time b - time a) by lra.
  destruct (Qeq_bool (time b - time a) 0) eqn:E.
  { apply Qeq_bool_iff in E. rewrite E in Hd. discriminate. }
  set (d := time b - time a) in *.
  set (pr := (t - time a) / d).
  assert (H0 : 0 <= pr) by (apply Qle_shift_div_l; [exact Hd|lra]).
  assert (H1 : pr <= 1) by (apply Qle_shift_div_r; [exact Hd|unfold d; lra]).
  split; nra.
Qed.

(** Property X3: whatever the order of its keyframes, a non-empty envelope is
    interpolated to a value between the smallest and the largest keyframe
    beat frequency. *)
Theorem interpolate_within_keyframes (p : SessionPreset) (t lo hi : Q) :
  frequencyEnvelope p <> [] ->
  Forall (fun fp => lo <= beatFreq fp <= hi) (frequencyEnvelope p) ->
  lo <= interpolateFrequency (Some p) t <= hi.
Proof.
  intros Hne Hall. rewrite List.Forall_forall in Hall. simpl.
  destruct (frequencyEnvelope p) as [|e0 rest] eqn:Eenv; [contradiction|].
  destruct rest as [|e1 rest'].
  - apply Hall. left. reflexivity.
  - unfold interpolate_env.
    set (env := e0 :: e1 :: rest') in *.
    assert (Hl : In (default e0 (last env)) env).
    { destruct (last env) eqn:El; [apply last_in; exact El|left; reflexivity]. }
    destruct (Qleb t (time e0)) eqn:E1; [apply Hall; left; reflexivity|].
    destruct (Qleb (time (default e0 (last env))) t) eqn:E2; [apply Hall; exact Hl|].
    apply Qleb_false in E1. apply Qleb_false in E2.
    destruct (find_segment env t) as [[a b]|] eqn:Ef; simpl.
    + destruct (find_segment_in env t a b Ef) as (Ha & Hb & Ht1 & Ht2).
      apply lerp_between; [exact Ht1|exact Ht2|apply Hall; exact Ha|apply Hall; exact Hb].
    + apply lerp_between; [lra|exact E2|apply Hall; left; reflexivity|apply Hall; exact Hl].
Qed.

Lemma find_rev_last {A : Type} (f : A -> bool) (l : list A) :
  match List.find f (rev l) with
  | Some x => exists i, l !! i = Some x /\ f x = true /\
                forall j y, (i < j)%nat -> l !! j = Some y -> f y = false
  | None => forall i y, l !! i = Some y -> f y = false
  end.
Proof.
  induction l as [|a l IH] using rev_ind.
  - simpl. intros i y H. rewrite lookup_nil in H. discriminate.
  - rewrite rev_unit. simpl.
    assert (Hlk : forall j y, (l ++ [a]) !! j = Some y ->
                  l !! j = Some y \/ (j = length l /\ y = a)).
    { intros j y H. apply lookup_app_Some in H as [H|[Hle H]]; [left; exact H|right].
      destruct (j - length l)%nat as [|k] eqn:Ek; simpl in H; [|rewrite lookup_nil in H; discriminate].
      injection H as <-. split; [lia|reflexivity]. }
    destruct (f a) eqn:Ea.
    + exists (length l). split; [apply list_lookup_middle; reflexivity|].
      split; [exact Ea|]. intros j y Hj H. apply Hlk in H as [H|[-> _]]; [|lia].
      apply lookup_lt_Some in H. lia.
    + destruct (List.find f (rev l)) as [x|] eqn:Ef.
      * destruct IH as (i & Hi & Hx & Hmax). exists i.
        split; [apply lookup_app_l_Some; exact Hi|]. split; [exact Hx|].
        intros j y Hj H. apply Hlk in H as [H|[_ ->]]; [|exact Ea].
        exact (Hmax j y Hj H).
      * intros i y H. apply Hlk in H as [H|[_ ->]]; [|exact Ea]. exact (IH i y H).
Qed.

(** Property X4: [getCurrentGuidancePhaseName] returns the name of the last phase
    (highest index) whose [[startTime, endTime)] contains the elapsed time,
    and [undefined] when no phase contains it. *)
Theorem guidance_phase_latest (phases : list GuidancePhase) (elapsed : Q) :
  match getCurrentGuidancePhaseName (Some phases) elapsed with
  | Some name => exists i ph, phases !! i = Some ph /\ phase_contains ph elapsed = true /\
                   gp_name ph = name /\
                   forall j ph', (i < j)%nat -> phases !! j = Some ph' ->
                                 phase_contains ph' elapsed = false
  | None => forall i ph, phases !! i = Some ph -> phase_contains ph elapsed = false
  end.
Proof.
  pose proof (find_rev_last (fun ph => phase_contains ph elapsed) phases) as H.
  unfold getCurrentGuidancePhaseName.
  destruct (List.find (fun ph => phase_contains ph elapsed) (rev phases)) as [ph|]; simpl.
  - destruct H as (i & Hi & Hc & Hmax). exists i, ph. auto.
  - exact H.
Qed.

Lemma last_cons_eq {A : Type} (x : A) (l : list A) :
  last (x :: l) = match last l with Some y => Some y | None => Some x end.
Proof.
  destruct l as [|y l]; [reflexivity|].
  change (last (x :: y :: l)) with (last (y :: l)).
  destruct (last (y :: l)) eqn:E; [reflexivity|]. exfalso.
  revert y E. induction l as [|z l IH]; intros y E; [discriminate|]. exact (IH z E).
Qed.

(** Property X5: over any sequence of ticks with a resonant-tuning window and an
    audio context, the resonant tone is started only while it is off and
    stopped only while it is on (starts and stops alternate, so no second
    tone is ever started over a running one), and after each tick it is on
    exactly when the last elapsed time lies in [[startTime, endTime)]. *)
Theorem resonant_tone_alternates (r : ResonantTuning) (active : bool) (es : list Q) :
  tone_alternates active (resonant_run (Some r) true active es).2 /\
  (resonant_run (Some r) true active es).1 =
    match last es with
    | Some e => Qleb (rt_startTime r) e && Qltb e (rt_endTime r)
    | None => active
    end.
Proof.
  revert active. induction es as [|e rest IH]; intros active; [split; [exact I|reflexivity]|].
  rewrite last_cons_eq. cbn [resonant_run].
  unfold updateResonantTone. cbn [negb].
  destruct (Qleb (rt_startTime r) e && Qltb e (rt_endTime r)) eqn:Ew, active; cbn [andb negb];
    match goal with
    | |- context [resonant_run _ _ ?b rest] =>
        pose proof (IH b) as [IH1 IH2];
        destruct (resonant_run (Some r) true b rest) as [af acts] eqn:Er
    end; simpl in *;
    (split; [try split; try reflexivity; exact IH1|]);
    rewrite IH2; destruct (last rest); simpl; rewrite ?Ew; reflexivity.
Qed.

(* ------------------------------------------------------------------ *)
(** ** Further properties of the pulse scheduler *)

Lemma pulse_loop_upper (p endTime : Q) (fuel : nat) (t : Q) :
  t < endTime + p -> snd (pulse_loop fuel p t endTime) < endTime + p.
Proof.
  revert t. induction fuel as [|n IH]; intros t Ht; [exact Ht|].
  simpl. destruct (Qltb t endTime) eqn:E; [|exact Ht].
  apply Qltb_iff in E.
  destruct (pulse_loop n p (t + p) endTime) as [evs t'] eqn:Ep. simpl.
  change t' with (snd (evs, t')). rewrite <- Ep. apply IH. lra.
Qed.

Lemma pulse_loop_noop (p endTime : Q) (fuel : nat) (t : Q) :
  endTime <= t -> pulse_loop fuel p t endTime = ([], t).
Proof.
  intros H. destruct fuel; [reflexivity|]. simpl.
  assert (E : Qltb t endTime = false) by (apply Qltb_false; exact H).
  rewrite E. reflexivity.
Qed.

(** Property X6: whatever value [setBeatFrequency] receives (zero and negative values
    included, clamped to 1 Hz), the next [schedulePulses] call at [now]
    leaves [lastScheduledTime] at or after [now + 1.1] and less than one
    period [1 / max(freq, 1)] (at most 1 s) past
    [max(previous lastScheduledTime, now + 1.1)]. *)
Theorem iso_schedule_ahead (e : IsochronicEngine) (freq now : Q) :
  now + scheduleAhead <= lastScheduledTime (schedulePulses (iso_setBeatFrequency e freq) now) /\
  lastScheduledTime (schedulePulses (iso_setBeatFrequency e freq) now) <
    Qmax (lastScheduledTime e) (now + scheduleAhead) + 1 / Qmax freq 1.
Proof.
  unfold schedulePulses, iso_setBeatFrequency. cbn [lastScheduledTime _beatFreq gain_events].
  set (p := 1 / Qmax freq 1).
  assert (Hm : 1 <= Qmax freq 1) by apply Q.le_max_r.
  assert (Hp : 0 < p) by (apply Qlt_shift_div_l; lra).
  set (last := lastScheduledTime e).
  set (endTime := now + scheduleAhead).
  assert (Hsa : 0 < scheduleAhead) by (unfold scheduleAhead; lra).
  assert (Hmx1 : last <= Qmax last endTime) by apply Q.le_max_l.
  assert (Hmx2 : endTime <= Qmax last endTime) by apply Q.le_max_r.
  assert (Hne : now < endTime) by (unfold endTime; lra).
  set (sf := if Qltb last (now - (1#10)) then now else Qmax last now).
  assert (Hsf : now <= sf /\ sf <= Qmax last endTime).
  { unfold sf. destruct (Qltb last (now - (1#10))).
    - split; lra.
    - split; [apply Q.le_max_r|]. apply Q.max_lub; lra. }
  destruct Hsf as [Hsf1 Hsf2].
  destruct (Qlt_le_dec sf endTime) as [Hlt|Hge].
  - pose proof (pulse_loop_exits p endTime (loop_fuel p sf endTime) sf Hp
                  (loop_fuel_enough p sf endTime Hp)) as Hex.
    assert (Hup : snd (pulse_loop (loop_fuel p sf endTime) p sf endTime) < endTime + p)
      by (apply pulse_loop_upper; lra).
    destruct (pulse_loop (loop_fuel p sf endTime) p sf endTime) as [evs t]. simpl in *.
    split; lra.
  - rewrite (pulse_loop_noop p endTime _ sf Hge). simpl. split; lra.
Qed.

Lemma Qhalf (p : Q) : p / 2 == (1#2) * p.
Proof. field. Qed.

(** Property X7: the five breakpoints of one pulse cycle are in time order exactly
    when the beat frequency is at most 125 Hz (a period of at least 8 ms);
    above that the release breakpoint [setValueAtTime(1, onEnd - 0.002)]
    comes before the end of the attack ramp. *)
Theorem pulse_cycle_ordered (f t : Q) :
  0 < f ->
  (Sorted (fun a b => event_time a <= event_time b) (pulse_events (1 / f) t) <-> f <= 125).
Proof.
  intros Hf. unfold pulse_events.
  assert (Hfz : ~ f == 0) by (intros E; rewrite E in Hf; discriminate).
  assert (Hp : 0 < 1 / f) by (apply Qlt_shift_div_l; [exact Hf|lra]).
  assert (Ekey : (1 / f) * f == 1) by (field; exact Hfz).
  set (p := 1 / f) in *.
  pose proof (Qhalf p) as Hh. unfold rampTime.
  split.
  - intros HS. inversion HS as [|x l HS1 HR1]; subst.
    inversion HS1 as [|x' l' HS2 HR2]; subst.
    inversion HR2 as [|b l'' Hle]; subst. simpl in Hle.
    assert (H8 : (8#1000) <= p) by lra.
    apply (Qmult_le_r _ _ f Hf) in H8. rewrite Ekey in H8.
    apply Qmult_le_r with (8#1000); [reflexivity|]. lra.
  - intros H125.
    assert (H8 : (8#1000) <= p).
    { apply (Qmult_le_r _ _ f Hf). rewrite Ekey. lra. }
    repeat constructor; simpl; lra.
Qed.

(* ------------------------------------------------------------------ *)
(** ** Further properties of the ambient buffer cache *)

Lemma in_take_in {A : Type} (n : nat) (l : list A) (x : A) : In x (take n l) -> In x l.
Proof.
  revert l. induction n as [|n IH]; intros l H; [destruct H|].
  destruct l as [|a l]; [destruct H|]. destruct H as [H|H]; [left; exact H|right; exact (IH l H)].
Qed.

Lemma take_evicted (c : AmbientCache) (key : string) :
  take (length (cacheOrder c) + 1 - MAX_CACHED_BUFFERS) (cacheOrder c ++ [key]) =
  take (length (cacheOrder c) + 1 - MAX_CACHED_BUFFERS) (cacheOrder c).
Proof. apply take_app_le. unfold MAX_CACHED_BUFFERS. lia. Qed.

(** Property X8: a decoded buffer stored by [fetchBuffer] for a file not already
    listed in [cacheOrder] is found by the next [fetchBuffer] of the same
    sound, which returns it from the cache. *)
Theorem ambient_fetch_then_hit (c : AmbientCache) (sound : string) (meta : AmbientSoundMeta)
    (buf : AudioBuffer) :
  find_meta sound = Some meta -> ~ In (filename meta) (cacheOrder c) ->
  fetch_begin (fetch_complete c (filename meta) buf) sound = CacheHit buf.
Proof.
  intros Hm Hn. unfold fetch_begin. rewrite Hm.
  destruct (fetch_complete_spec c (filename meta) buf) as [_ Hb]. rewrite Hb.
  rewrite take_evicted, delete_all_notin.
  - rewrite lookup_insert_eq. reflexivity.
  - intros Hin. apply Hn. exact (in_take_in _ _ _ Hin).
Qed.

(** Property X9: when the file of a completing fetch is among the entries that
    completion evicts (it is already at the front of a full [cacheOrder],
    as after two overlapping fetches of one sound), the freshly decoded
    buffer is deleted at once: afterwards the file is listed in
    [cacheOrder] but absent from [bufferCache]. *)
Theorem ambient_self_eviction (c : AmbientCache) (key : string) (buf : AudioBuffer) :
  In key (take (length (cacheOrder c) + 1 - MAX_CACHED_BUFFERS) (cacheOrder c)) ->
  bufferCache (fetch_complete c key buf) !! key = None /\
  In key (cacheOrder (fetch_complete c key buf)).
Proof.
  intros Hin. destruct (fetch_complete_spec c key buf) as [Ho Hb]. rewrite Ho, Hb.
  split.
  - rewrite take_evicted. apply delete_all_in. exact Hin.
  - rewrite drop_app_le by (unfold MAX_CACHED_BUFFERS; lia).
    apply in_or_app. right. left. reflexivity.
Qed.

(* ------------------------------------------------------------------ *)
(** ** Further properties of the narration engine *)

Lemma filter_after_all_late (l : list VoiceCue) (t : Q) (f : VoiceCue -> bool) :
  Forall (fun c => t < cue_time c) l ->
  List.filter (fun c => Qleb (cue_time c) t && f c) l = [].
Proof.
  induction l as [|c rest IH]; intros H; [reflexivity|].
  inversion H as [|? ? Hc Hr]; subst. simpl.
  assert (E : Qleb (cue_time c) t = false) by (apply Qleb_false; exact Hc).
  rewrite E. simpl. exact (IH Hr).
Qed.

Lemma text_at_loop_sorted (l : list VoiceCue) (t : Q) (acc : option string) :
  StronglySorted (fun a b => cue_time a <= cue_time b) l ->
  text_at_loop l t acc =
  match last (List.filter (fun c => Qleb (cue_time c) t && cue_spoken c) l) with
  | Some c => cue_text c
  | None => acc
  end.
Proof.
  revert acc. induction l as [|c rest IH]; intros acc Hs; [reflexivity|].
  inversion Hs as [|? ? Hs' Hall]; subst. cbn [text_at_loop List.filter].
  destruct (Qltb t (cue_time c)) eqn:E.
  - apply Qltb_iff in E.
    assert (Hl : Forall (fun x => t < cue_time x) rest).
    { eapply Forall_impl; [exact Hall|]. intros x Hx. simpl in Hx. lra. }
    assert (E' : Qleb (cue_time c) t = false) by (apply Qleb_false; exact E).
    rewrite E', (filter_after_all_late rest t cue_spoken Hl). reflexivity.
  - apply Qltb_false in E.
    assert (E' : Qleb (cue_time c) t = true) by (apply Qleb_iff; exact E).
    rewrite E'. simpl. rewrite (IH _ Hs').
    destruct (cue_spoken c).
    + rewrite last_cons_eq. destruct (last _); reflexivity.
    + reflexivity.
Qed.

(** Property X10: for a cue list sorted by time (as [init] leaves it),
    [getTextAtTime(time)] is the text of the last cue with
    [cue.time <= time] that is neither [chimeOnly] nor text-less, and
    [undefined] when there is none. *)
Theorem text_at_time_last_spoken (v : VoiceCueEngine) (time : Q) :
  cues_sorted (cues v) ->
  getTextAtTime v time =
  match last (List.filter (fun c => Qleb (cue_time c) time && cue_spoken c) (cues v)) with
  | Some c => cue_text c
  | None => None
  end.
Proof.
  intros Hs. unfold getTextAtTime. apply text_at_loop_sorted.
  apply Sorted_StronglySorted; [intros a b c; apply Qle_trans|exact Hs].
Qed.

Lemma spoken_count_mono (l : list VoiceCue) (i j : nat) :
  (i <= j)%nat -> (spoken_count l i <= spoken_count l j)%nat.
Proof.
  revert i j. induction l as [|c rest IH]; intros i j Hij.
  - destruct i, j; simpl; lia.
  - destruct i as [|i]; [simpl; lia|]. destruct j as [|j]; [lia|].
    simpl. specialize (IH i j ltac:(lia)). lia.
Qed.

Lemma spoken_count_step (l : list VoiceCue) (i : nat) (c : VoiceCue) :
  l !! i = Some c -> cue_chimeOnly c = false ->
  spoken_count l (S i) = S (spoken_count l i).
Proof.
  revert i. induction l as [|c0 rest IH]; intros i Hc Hco; [discriminate|].
  destruct i as [|i]; simpl in Hc.
  - injection Hc as <-. simpl. rewrite Hco. destruct rest; reflexivity.
  - change (spoken_count (c0 :: rest) (S (S i)))
      with ((if cue_chimeOnly c0 then 0 else 1) + spoken_count rest (S i))%nat.
    change (spoken_count (c0 :: rest) (S i))
      with ((if cue_chimeOnly c0 then 0 else 1) + spoken_count rest i)%nat.
    rewrite (IH i Hc Hco). lia.
Qed.

(** Property X11: [getSpokenIndex] gives every cue that is not [chimeOnly] its own
    manifest slot: for such a cue at index [i], every later index [j] has a
    strictly larger spoken index.  A cue with [chimeOnly] unset counts
    whether or not it has a text. *)
Theorem spoken_index_injective (v : VoiceCueEngine) (i j : nat) (c : VoiceCue) :
  cues v !! i = Some c -> cue_chimeOnly c = false -> (i < j)%nat ->
  (getSpokenIndex v i < getSpokenIndex v j)%nat.
Proof.
  intros Hc Hco Hij. unfold getSpokenIndex.
  rewrite <- (Nat.le_succ_l). rewrite <- (spoken_count_step _ _ _ Hc Hco).
  apply spoken_count_mono. lia.
Qed.

Lemma prefetch_loop_spec (l : list VoiceCue) (i count : nat) :
  prefetch_loop l i count =
  take count (omap (fun kc : nat * VoiceCue => if cue_spoken kc.2 then Some kc.1 else None)
                   (zip (seq i (length l)) l)).
Proof.
  revert i count. induction l as [|c rest IH]; intros i count.
  - destruct count; reflexivity.
  - destruct count as [|k]; [reflexivity|].
    cbn [prefetch_loop length seq zip]. simpl. rewrite !IH.
    destruct (cue_spoken c); reflexivity.
Qed.

(** Property X12: [prefetchAhead(from, count)] calls [fetchBuffer] on the first
    [count] indices at or after [from] whose cue is neither [chimeOnly] nor
    text-less, in increasing order (fewer when the list runs out); the
    skipped cues do not use up the count. *)
Theorem prefetch_first_spoken (v : VoiceCueEngine) (from count : nat) :
  prefetchAhead v from count =
  take count (omap (fun kc : nat * VoiceCue => if cue_spoken kc.2 then Some kc.1 else None)
                   (zip (seq from (length (cues v) - from)) (drop from (cues v)))).
Proof.
  unfold prefetchAhead. rewrite prefetch_loop_spec, length_drop. reflexivity.
Qed.

Lemma voice_fetch_reqs (l : list VoiceCue) (st : VoiceFetch) (is : list nat) :
  NoDup (started_fetches (voice_fetch_run l st (map FetchReq is)).1) /\
  (forall i, In i (started_fetches (voice_fetch_run l st (map FetchReq is)).1) ->
             voiceBuffers st !! i = None /\ i ∉ fetchPromises st).
Proof.
  revert st. induction is as [|i rest IH]; intros st.
  - split; [constructor|intros i []].
  - cbn [map voice_fetch_run].
    destruct (voice_fetch_begin l st i) as [o st'] eqn:Eb.
    destruct (voice_fetch_run l st' (map FetchReq rest)) as [outs stf] eqn:Er.
    destruct (IH st') as [Hnd Hin]. rewrite Er in Hnd, Hin. simpl in Hnd, Hin.
    unfold voice_fetch_begin in Eb.
    destruct (voiceBuffers st !! i) as [b|] eqn:Ec.
    + injection Eb as <- <-. simpl. unfold started_fetches in *. simpl. auto.
    + destruct (decide (i ∈ fetchPromises st)) as [Hp|Hp].
      * injection Eb as <- <-. unfold started_fetches in *. simpl. auto.
      * destruct (manifest st !! spoken_count l i) as [f|].
        -- injection Eb as <- <-. unfold started_fetches in *. simpl in *.
           split.
           ++ constructor; [|exact Hnd].
              intros Hi. apply list_elem_of_In in Hi. destruct (Hin i Hi) as [_ Hn]. apply Hn. set_solver.
           ++ intros j [<-|Hj]; [auto|].
              destruct (Hin j Hj) as [Hb Hn]. split; [exact Hb|set_solver].
        -- injection Eb as <- <-. unfold started_fetches in *. simpl. auto.
Qed.

(** Property X13: in a sequence of [fetchBuffer] calls with no fetch completing in
    between, each cue index starts at most one network fetch, and only an
    index that was neither cached nor in flight at the start does: the
    later calls hit [fetchPromises]. *)
Theorem voice_fetch_at_most_once (l : list VoiceCue) (st : VoiceFetch) (is : list nat) :
  NoDup (started_fetches (voice_fetch_run l st (map FetchReq is)).1) /\
  (forall i, In i (started_fetches (voice_fetch_run l st (map FetchReq is)).1) ->
             voiceBuffers st !! i = None /\ i ∉ fetchPromises st).
Proof. apply voice_fetch_reqs. Qed.

(** Property X14: after a [fetchBuffer] call that starts a fetch, a successful
    completion makes the next call for the same cue return the cached buffer
    without fetching, while a failed one (a [null] result) is not
    remembered: the next call starts the fetch of the same file again. *)
Theorem voice_fetch_retry (l : list VoiceCue) (st st' : VoiceFetch) (i : nat) (f : string)
    (b : AudioBuffer) :
  voice_fetch_begin l st i = (VStarted f, st') ->
  fst (voice_fetch_begin l (voice_fetch_complete st' i (Some b)) i) = VCached b /\
  fst (voice_fetch_begin l (voice_fetch_complete st' i None) i) = VStarted f.
Proof.
  unfold voice_fetch_begin. intros H.
  destruct (voiceBuffers st !! i) as [b0|] eqn:Ec; [discriminate|].
  destruct (decide (i ∈ fetchPromises st)); [discriminate|].
  destruct (manifest st !! spoken_count l i) as [f0|] eqn:Em; [|discriminate].
  injection H as <- <-. unfold voice_fetch_complete. cbn [voiceBuffers fetchPromises manifest].
  split.
  - rewrite lookup_insert_eq. reflexivity.
  - rewrite Ec. destruct (decide (i ∈ ({[i]} ∪ fetchPromises st) ∖ {[i]})) as [Hin|Hin].
    + exfalso. set_solver.
    + rewrite Em. reflexivity.
Qed.

Lemma omap_cons_lookup {A : Type} (l : list A) (i : nat) (rest : list nat) :
  omap (fun k => l !! k) (i :: rest) =
  match l !! i with Some c => c :: omap (fun k => l !! k) rest | None => omap (fun k => l !! k) rest end.
Proof. reflexivity. Qed.

Lemma tick_flags_spec (l : list VoiceCue) (ds : list nat) (sc : bool) (ct : option string) :
  tick_flags l ds sc ct =
  (sc || existsb (fun c => cue_chime c || cue_chimeOnly c) (omap (fun k => l !! k) ds),
   match last (List.filter cue_spoken (omap (fun k => l !! k) ds)) with
   | Some c => cue_text c
   | None => ct
   end).
Proof.
  revert sc ct. induction ds as [|i rest IH]; intros sc ct.
  - simpl. rewrite orb_false_r. reflexivity.
  - rewrite omap_cons_lookup. cbn [tick_flags]. destruct (l !! i) as [c|].
    + rewrite IH. cbn [existsb List.filter].
      destruct (cue_spoken c).
      * rewrite last_cons_eq. destruct (last _); f_equal; rewrite !orb_assoc; reflexivity.
      * f_equal. rewrite !orb_assoc. reflexivity.
    + rewrite IH. reflexivity.
Qed.

Lemma play_all_disabled (w : VoiceCueEngine) (ds : list nat) :
  enabled w = false -> play_all w ds = w.
Proof.
  revert w. induction ds as [|i rest IH]; intros w Hw; [reflexivity|].
  simpl. assert (E : speaks w i = false).
  { unfold speaks. rewrite Hw. destruct (cues w !! i); reflexivity. }
  rewrite E. exact (IH w Hw).
Qed.

(** Property X15: with narration disabled, [tick] starts no playback (the playing
    source and the pending fetches stay as they are), yet its result is
    unchanged: [shouldChime] is set when a dispatched cue has [chime] or
    [chimeOnly], and [cueText] is the text of the last dispatched cue that
    is neither [chimeOnly] nor text-less. *)
Theorem voice_tick_disabled_captions (v : VoiceCueEngine) (elapsed : Q) :
  enabled v = false ->
  activeSource (fst (voice_tick v elapsed)) = activeSource v /\
  pendingFetch (fst (voice_tick v elapsed)) = pendingFetch v /\
  voice_tick_result v elapsed =
  (existsb (fun c => cue_chime c || cue_chimeOnly c)
     (omap (fun k => cues v !! k) (snd (voice_tick v elapsed))),
   match last (List.filter cue_spoken (omap (fun k => cues v !! k) (snd (voice_tick v elapsed)))) with
   | Some c => cue_text c
   | None => None
   end).
Proof.
  intros Hd. unfold voice_tick_result, voice_tick.
  destruct (Nat.leb (length (cues v)) (nextCueIndex v)); [simpl; auto|].
  destruct (dispatch_from (drop (nextCueIndex v) (cues v)) (nextCueIndex v) elapsed) as [j ds].
  rewrite play_all_disabled by exact Hd. cbn [fst snd activeSource pendingFetch].
  split; [reflexivity|]. split; [reflexivity|].
  rewrite tick_flags_spec. reflexivity.
Qed.

Lemma insert_by_time_perm (c : VoiceCue) (l : list VoiceCue) :
  Permutation (insert_by_time c l) (c :: l).
Proof.
  induction l as [|x rest IH]; [reflexivity|]. simpl.
  destruct (Qltb (cue_time c) (cue_time x)); [reflexivity|].
  rewrite IH. apply perm_swap.
Qed.

Lemma insert_by_time_hd (a c : VoiceCue) (l : list VoiceCue) :
  HdRel (fun x y => cue_time x <= cue_time y) a l -> cue_time a <= cue_time c ->
  HdRel (fun x y => cue_time x <= cue_time y) a (insert_by_time c l).
Proof.
  intros Hh Hac. destruct l as [|x rest]; simpl; [constructor; exact Hac|].
  destruct (Qltb (cue_time c) (cue_time x)); constructor; [exact Hac|].
  inversion Hh; assumption.
Qed.

Lemma insert_by_time_sorted (c : VoiceCue) (l : list VoiceCue) :
  cues_sorted l -> cues_sorted (insert_by_time c l).
Proof.
  unfold cues_sorted. induction l as [|x rest IH]; intros Hs; simpl.
  - repeat constructor.
  - destruct (Qltb (cue_time c) (cue_time x)) eqn:E.
    + apply Qltb_iff in E. constructor; [exact Hs|]. constructor. lra.
    + apply Qltb_false in E. inversion Hs as [|? ? Hs' Hh]; subst.
      constructor; [exact (IH Hs')|]. apply insert_by_time_hd; assumption.
Qed.

Lemma sort_by_time_acc (l acc : list VoiceCue) :
  cues_sorted acc ->
  Permutation (fold_left (fun a c => insert_by_time c a) l acc) (l ++ acc) /\
  cues_sorted (fold_left (fun a c => insert_by_time c a) l acc).
Proof.
  revert acc. induction l as [|c rest IH]; intros acc Hs; [split; [reflexivity|exact Hs]|].
  simpl. destruct (IH (insert_by_time c acc) (insert_by_time_sorted c acc Hs)) as [Hp Hs'].
  split; [|exact Hs'].
  rewrite Hp, insert_by_time_perm. symmetry. apply Permutation_middle.
Qed.

(** Property X16: [init] stores a time-sorted permutation of the given cues, so a
    [seek(t)] right after it puts the cursor on the first cue with
    [time >= t] whatever the order the caller passed the cues in; [init]
    leaves the playing source and the pending fetches of the previous
    track untouched. *)
Theorem voice_init_seek (v : VoiceCueEngine) (cs : list VoiceCue) (en : bool) (t : Q) :
  Permutation (cues (voice_seek (voice_init v cs en) t)) cs /\
  cues_sorted (cues (voice_seek (voice_init v cs en) t)) /\
  nextCueIndex (voice_seek (voice_init v cs en) t) =
    first_at_or_after (cues (voice_seek (voice_init v cs en) t)) t /\
  activeSource (voice_init v cs en) = activeSource v /\
  pendingFetch (voice_seek (voice_init v cs en) t) = pendingFetch v.
Proof.
  assert (Hn : cues_sorted []) by constructor.
  destruct (sort_by_time_acc cs [] Hn) as [Hp Hs]. rewrite app_nil_r in Hp.
  unfold voice_seek, voice_init, sort_by_time. cbn [cues nextCueIndex activeSource pendingFetch].
  split; [exact Hp|]. split; [exact Hs|]. split; [|auto].
  apply bsearch_correct; [exact Hs|lia|lia|lia| |].
  - intros i c Hi. lia.
  - intros i c Hi Hc. rewrite lookup_ge_None_2 in Hc by lia. discriminate.
Qed.

(* ------------------------------------------------------------------ *)
(** ** Further properties of the speech-synthesis engine *)

(** Property X17: while narration is disabled or [speechSynthesis] is unavailable,
    [tick] returns [shouldChime = false] and leaves the cursor where it is,
    whatever the times: the cues that fall due meanwhile are all dispatched
    by the first tick after narration becomes possible again. *)
Theorem speech_disabled_silent (isAvailable : bool) (v : VoiceCueEngine) (es : list Q) :
  enabled v = false \/ isAvailable = false ->
  speech_run isAvailable v es = (map (fun _ => false) es, v).
Proof.
  intros Hd. induction es as [|e rest IH]; [reflexivity|].
  simpl. unfold speech_tick at 1.
  assert (E : negb (enabled v) || negb isAvailable || Nat.leb (length (cues v)) (nextCueIndex v) = true).
  { destruct Hd as [H|H]; rewrite H; simpl; [reflexivity|]. rewrite orb_true_r. reflexivity. }
  rewrite E. rewrite IH. reflexivity.
Qed.

(* ------------------------------------------------------------------ *)
(** ** Instances of the further properties *)

Lemma pause_idempotent_witness :
  0 < 31000 /\ isPlaying example_session = true /\
  isPaused (pause example_session 31000) = true /\
  pause (pause example_session 31000) 40000 = pause example_session 31000.
Proof.
  assert (H1 : 0 < 31000) by (apply Qltb_iff; reflexivity).
  assert (H2 : isPlaying example_session = true) by (vm_compute; reflexivity).
  destruct (pause_idempotent (fun _ => 0) 0 example_session 31000 40000 H1 H2)
    as (Ha & _ & _ & Hb & _).
  exact (conj H1 (conj H2 (conj Ha Hb))).
Defined.

Lemma interpolate_within_keyframes_witness :
  frequencyEnvelope example_preset <> [] /\
  Forall (fun fp => 4 <= beatFreq fp <= 8) (frequencyEnvelope example_preset) /\
  4 <= interpolateFrequency (Some example_preset) 90 <= 8.
Proof.
  assert (H1 : frequencyEnvelope example_preset <> []) by (vm_compute; discriminate).
  assert (H2 : Forall (fun fp => 4 <= beatFreq fp <= 8) (frequencyEnvelope example_preset)).
  { vm_compute. repeat constructor; discriminate. }
  exact (conj H1 (conj H2 (interpolate_within_keyframes example_preset 90 4 8 H1 H2))).
Defined.

Lemma pulse_cycle_ordered_witness :
  0 < 10 /\ Sorted (fun a b => event_time a <= event_time b) (pulse_events (1 / 10) 0) /\
  ~ Sorted (fun a b => event_time a <= event_time b) (pulse_events (1 / 200) 0).
Proof.
  assert (H1 : 0 < 10) by (apply Qltb_iff; reflexivity).
  assert (H2 : 0 < 200) by (apply Qltb_iff; reflexivity).
  split; [exact H1|]. split.
  - apply (proj2 (pulse_cycle_ordered 10 0 H1)). apply Qleb_iff. reflexivity.
  - intros Hs. apply (proj1 (pulse_cycle_ordered 200 0 H2)) in Hs.
    apply Qleb_iff in Hs. discriminate.
Defined.


Lemma ambient_fetch_then_hit_witness :
  find_meta "wind" = Some (mkMeta "wind" "wind.ogg") /\
  ~ In "wind.ogg"%string (cacheOrder example_ambient_cache) /\
  fetch_begin (fetch_complete example_ambient_cache "wind.ogg" 4%nat) "wind" = CacheHit 4%nat.
Proof.
  assert (H1 : find_meta "wind" = Some (mkMeta "wind" "wind.ogg")) by reflexivity.
  assert (H2 : ~ In "wind.ogg"%string (cacheOrder example_ambient_cache)).
  { vm_compute. intros [H|[H|[H|[]]]]; discriminate. }
  exact (conj H1 (conj H2
    (ambient_fetch_then_hit example_ambient_cache "wind" (mkMeta "wind" "wind.ogg") 4%nat H1 H2))).
Defined.


Lemma ambient_self_eviction_witness :
  In "wind.ogg"%string
    (take (length (cacheOrder example_wind_cache) + 1 - MAX_CACHED_BUFFERS)
          (cacheOrder example_wind_cache)) /\
  bufferCache (fetch_complete example_wind_cache "wind.ogg" 4%nat) !! "wind.ogg"%string = None.
Proof.
  assert (H : In "wind.ogg"%string
    (take (length (cacheOrder example_wind_cache) + 1 - MAX_CACHED_BUFFERS)
          (cacheOrder example_wind_cache))) by (vm_compute; left; reflexivity).
  exact (conj H (proj1 (ambient_self_eviction example_wind_cache "wind.ogg" 4%nat H))).
Defined.

Lemma example_cues_sorted : cues_sorted example_cues.
Proof. unfold cues_sorted, example_cues; repeat constructor; simpl; unfold Qle; simpl; lia. Qed.

Lemma text_at_time_last_spoken_witness :
  cues_sorted example_cues /\
  getTextAtTime (mkVoice example_cues 0 true None []) 45 = Some "welcome"%string.
Proof.
  split; [exact example_cues_sorted|].
  rewrite (text_at_time_last_spoken (mkVoice example_cues 0 true None []) 45 example_cues_sorted).
  vm_compute. reflexivity.
Defined.

Lemma spoken_index_injective_witness :
  example_cues !! 0%nat = Some (mkCue 0 (Some "welcome"%string) false false) /\
  (getSpokenIndex (mkVoice example_cues 0 true None []) 0 <
   getSpokenIndex (mkVoice example_cues 0 true None []) 3)%nat.
Proof.
  split; [reflexivity|].
  exact (spoken_index_injective (mkVoice example_cues 0 true None []) 0 3
           (mkCue 0 (Some "welcome"%string) false false) eq_refl eq_refl ltac:(lia)).
Defined.


Lemma voice_fetch_retry_witness :
  voice_fetch_begin example_cues example_voice_fetch 2 =
    (VStarted "breathe.mp3", snd (voice_fetch_begin example_cues example_voice_fetch 2)) /\
  fst (voice_fetch_begin example_cues
         (voice_fetch_complete (snd (voice_fetch_begin example_cues example_voice_fetch 2)) 2 None)
         2) = VStarted "breathe.mp3".
Proof.
  assert (H : voice_fetch_begin example_cues example_voice_fetch 2 =
    (VStarted "breathe.mp3", snd (voice_fetch_begin example_cues example_voice_fetch 2)))
    by (vm_compute; reflexivity).
  exact (conj H (proj2 (voice_fetch_retry example_cues example_voice_fetch _ 2 "breathe.mp3"
                          7%nat H))).
Defined.

Lemma voice_tick_disabled_captions_witness :
  enabled (mkVoice example_cues 0 false None []) = false /\
  voice_tick_result (mkVoice example_cues 0 false None []) 65 = (true, Some "breathe"%string).
Proof.
  split; [reflexivity|].
  destruct (voice_tick_disabled_captions (mkVoice example_cues 0 false None []) 65 eq_refl)
    as (_ & _ & H).
  rewrite H. vm_compute. reflexivity.
Defined.

Lemma speech_disabled_silent_witness :
  (enabled (mkVoice example_cues 0 false None []) = false \/ true = false) /\
  speech_run true (mkVoice example_cues 0 false None []) [10; 70] =
    ([false; false], mkVoice example_cues 0 false None []).
Proof.
  assert (H : enabled (mkVoice example_cues 0 false None []) = false \/ true = false)
    by (left; reflexivity).
  exact (conj H (speech_disabled_silent true (mkVoice example_cues 0 false None []) [10; 70] H)).
Defined.
